(** * Assignment 5: sampler / filter / actuator pipeline (src/assignment5/src/main.c)

    Three Zephyr threads share two [int] cells guarded by two binary
    semaphores.  Thread A samples the ADC once per period and writes [ab];
    thread B keeps the array [dados] of the last samples, computes a two-pass
    average and writes [bc]; thread C turns [bc] into a PWM pulse width.

    The development embeds one iteration of each thread's [while(1)] loop as
    a function on the shared state, with C's machine arithmetic written out,
    and proves the properties of the design document against it. *)

From stdpp Require Import base list numbers relations.
From Stdlib Require Import ZArith QArith Qround Lia.
From Stdlib Require Import Floats.SpecFloat.

Local Open Scope Z_scope.

(** ** Machine arithmetic *)

Module Mach.

(** [int] on the target is a 32-bit two's complement integer. *)
Definition INT_MIN : Z := - 2 ^ 31.
Definition INT_MAX : Z := 2 ^ 31 - 1.
Definition UINT_MOD : Z := 2 ^ 32.
Definition INT64_MOD : Z := 2 ^ 64.

Definition wrap_int (z : Z) : Z := (z + 2 ^ 31) mod UINT_MOD - 2 ^ 31.
Definition wrap_uint (z : Z) : Z := z mod UINT_MOD.
Definition wrap_int64 (z : Z) : Z := (z + 2 ^ 63) mod INT64_MOD - 2 ^ 63.

Definition add_int (a b : Z) : Z := wrap_int (a + b).
(** [a / b] on [int]: the quotient truncated toward zero. *)
Definition div_int (a b : Z) : Z := wrap_int (Z.quot a b).

Definition mul_uint (a b : Z) : Z := wrap_uint (a * b).
Definition div_uint (a b : Z) : Z := a / b.

Definition add_int64 (a b : Z) : Z := wrap_int64 (a + b).
Definition sub_int64 (a b : Z) : Z := wrap_int64 (a - b).

Definition in_int (z : Z) : Prop := INT_MIN <= z <= INT_MAX.

End Mach.

(** ** IEEE 754 binary64

    The trimming test of thread B is written with the [double] literal
    [0.1], so its operands are promoted to [double].  The operations are
    those of the Standard Library's executable specification of binary
    floating point, at precision 53 and maximal exponent 1024, rounding to
    nearest even. *)

Module Double.

Definition prec : Z := 53.
Definition emax : Z := 1024.

Definition of_int (z : Z) : spec_float := binary_normalize prec emax z 0 false.
Definition mul : spec_float -> spec_float -> spec_float := SFmul prec emax.
Definition add : spec_float -> spec_float -> spec_float := SFadd prec emax.
Definition sub : spec_float -> spec_float -> spec_float := SFsub prec emax.
Definition ltb : spec_float -> spec_float -> bool := SFltb.

(** The literal [0.1]: the binary64 number nearest to one tenth,
    7205759403792794 * 2^-56 (bit pattern 0x3FB999999999999A). *)
Definition lit_0_1 : spec_float := S754_finite false 7205759403792794 (-56).

End Double.

(** ** Constants of main.c *)

Definition dados_size : nat := 10.
Definition SAMP_PERIOD_MS : Z := 1000.
Definition pwmPeriod_us : Z := 1000.
(** Largest reading of the 10-bit converter ([ADC_RESOLUTION] 10); the
    source writes the literal 1023 at both of its uses. *)
Definition MAX_RAW : Z := 1023.

(** ** Kernel semaphore

    [k_sem] belongs to the Zephyr kernel: a counter that [k_sem_give]
    increments unless it has reached its limit, and that [k_sem_take]
    decrements, the caller waiting while it is zero. *)

Record k_sem := { count : Z; limit : Z }.

Definition k_sem_init (initial_count lim : Z) : k_sem :=
  {| count := initial_count; limit := lim |}.

Definition k_sem_give (s : k_sem) : k_sem :=
  if count s =? limit s then s else {| count := count s + 1; limit := limit s |}.

(** [None]: the caller stays blocked ([K_FOREVER]). *)
Definition k_sem_take (s : k_sem) : option k_sem :=
  if 0 <? count s then Some {| count := count s - 1; limit := limit s |} else None.

(** ** Shared memory *)

Record shmem := {
  ab : Z;            (* written by A, read by B *)
  bc : Z;            (* written by B, read by C *)
  sem_ab : k_sem;
  sem_bc : k_sem
}.

(** The initialisers of the globals and the two [k_sem_init] calls of [main]. *)
Definition main : shmem :=
  {| ab := 0; bc := 0; sem_ab := k_sem_init 0 1; sem_bc := k_sem_init 0 1 |}.

Definition set_ab (v : Z) (g : shmem) : shmem :=
  {| ab := v; bc := bc g; sem_ab := sem_ab g; sem_bc := sem_bc g |}.
Definition set_bc (v : Z) (g : shmem) : shmem :=
  {| ab := ab g; bc := v; sem_ab := sem_ab g; sem_bc := sem_bc g |}.
Definition set_sem_ab (s : k_sem) (g : shmem) : shmem :=
  {| ab := ab g; bc := bc g; sem_ab := s; sem_bc := sem_bc g |}.
Definition set_sem_bc (s : k_sem) (g : shmem) : shmem :=
  {| ab := ab g; bc := bc g; sem_ab := sem_ab g; sem_bc := s |}.

(** ** Thread A: the sampler *)

(** What the converter driver hands back for one [adc_read]: its return
    code and the content it leaves in [adc_sample_buffer[0]], a [uint16_t]. *)
Record adc_result := { adc_ret : Z; adc_buffer0 : Z }.

(** [adc_sample]: -1 without touching the buffer when the device is not
    bound, otherwise the driver's return code. *)
Definition adc_sample (adc_dev_bound : bool) (hw : adc_result) (buffer0 : Z) : Z * Z :=
  if negb adc_dev_bound then (-1, buffer0) else (adc_ret hw, adc_buffer0 hw).

(** Lines 196-213: take one sample, store it in [ab] when the read
    succeeded and the reading is at most 1023, then give [sem_ab]. *)
Definition thread_A_sample (err adc_sample_buffer0 : Z) (g : shmem) : shmem :=
  let g :=
    if negb (err =? 0) then g
    else if adc_sample_buffer0 >? 1023 then g
    else set_ab adc_sample_buffer0 g in
  set_sem_ab (k_sem_give (sem_ab g)) g.

(** Lines 216-220: with [fin_time] the uptime read after the sample, the
    time slept (if any) and the new [release_time]. *)
Definition thread_A_wait (fin_time release_time : Z) : option Z * Z :=
  if fin_time <? release_time
  then (Some (Mach.wrap_int (Mach.sub_int64 release_time fin_time)),
        Mach.add_int64 release_time SAMP_PERIOD_MS)
  else (None, release_time).

Record thread_A_state := {
  A_mem : shmem;
  adc_sample_buffer : Z;     (* [adc_sample_buffer[0]] *)
  release_time : Z;
  A_slept : option Z         (* argument of the last [k_msleep], if it slept *)
}.

(** Line 178, before the loop: [release_time = k_uptime_get() + SAMP_PERIOD_MS]. *)
Definition thread_A_init (uptime : Z) (g : shmem) : thread_A_state :=
  {| A_mem := g; adc_sample_buffer := 0;
     release_time := Mach.add_int64 uptime SAMP_PERIOD_MS; A_slept := None |}.

(** One iteration of the [while(1)] of [thread_A_code]; [hw] is what the
    driver does in this cycle and [fin_time] the uptime read at line 216. *)
Definition thread_A_code (adc_dev_bound : bool) (hw : adc_result) (fin_time : Z)
    (st : thread_A_state) : thread_A_state :=
  let '(err, buffer0) := adc_sample adc_dev_bound hw (adc_sample_buffer st) in
  let g := thread_A_sample err buffer0 (A_mem st) in
  let '(slept, rt) := thread_A_wait fin_time (release_time st) in
  {| A_mem := g; adc_sample_buffer := buffer0; release_time := rt; A_slept := slept |}.

(** ** Thread B: the filter *)

(** Lines 256-258: [for (l = dados_size-1; l > 0; l--) dados[l] = dados[l-1]]. *)
Fixpoint shift_loop (l : nat) (dados : list Z) : list Z :=
  match l with
  | O => dados
  | S l' => shift_loop l' (<[S l' := dados !!! l']> dados)
  end.

(** Lines 252-259: store [ab] in slot 0, remember the last slot, shift
    every slot one place up, put the remembered value in slot 0. *)
Definition rotate (ab : Z) (dados : list Z) : list Z :=
  let dados := <[O := ab]> dados in
  let x := dados !!! (dados_size - 1)%nat in
  let dados := shift_loop (dados_size - 1) dados in
  <[O := x]> dados.

(** Lines 262-269: sum and count of the non-zero slots; [v] is the value
    read from [dados[i]]. *)
Definition pass1_body (acc : Z * Z) (v : Z) : Z * Z :=
  let '(sum1, cnt1) := acc in
  if negb (v =? 0)
  then (Mach.add_int sum1 v, Mach.add_int cnt1 1)
  else (sum1, cnt1).

Definition pass1_loop (dados : list Z) : Z * Z :=
  foldl (fun acc i => pass1_body acc (dados !!! i)) (0, 0) (seq 0 dados_size).

(** Lines 272-275 and 290-293. *)
Definition average (sum cnt : Z) : Z :=
  if negb (cnt =? 0) then Mach.div_int sum cnt else 0.

Definition pass1 (dados : list Z) : Z :=
  let '(sum1, cnt1) := pass1_loop dados in average sum1 cnt1.

(** Line 281: [dados[j] < (Avg - Avg*0.1) || dados[j] > (Avg + Avg*0.1)],
    evaluated in [double]. *)
Definition band_low (Avg : Z) : spec_float :=
  Double.sub (Double.of_int Avg) (Double.mul (Double.of_int Avg) Double.lit_0_1).
Definition band_high (Avg : Z) : spec_float :=
  Double.add (Double.of_int Avg) (Double.mul (Double.of_int Avg) Double.lit_0_1).

Definition outlier (Avg v : Z) : bool :=
  Double.ltb (Double.of_int v) (band_low Avg)
  || Double.ltb (band_high Avg) (Double.of_int v).

(** Lines 280-287: sum and count of the slots that are not outliers; [v]
    is the value read from [dados[j]]. *)
Definition pass2_body (Avg : Z) (acc : Z * Z) (v : Z) : Z * Z :=
  let '(sum2, cnt2) := acc in
  if outlier Avg v
  then (sum2, cnt2)
  else (Mach.add_int sum2 v, Mach.add_int cnt2 1).

Definition pass2_loop (dados : list Z) (Avg : Z) : Z * Z :=
  foldl (fun acc j => pass2_body Avg acc (dados !!! j)) (0, 0) (seq 0 dados_size).

Definition pass2 (dados : list Z) (Avg : Z) : Z :=
  let '(sum2, cnt2) := pass2_loop dados Avg in average sum2 cnt2.

(** Lines 262-293: the value assigned to [bc]. *)
Definition two_pass (dados : list Z) : Z := pass2 dados (pass1 dados).

Record thread_B_state := { B_mem : shmem; dados : list Z }.

(** [int dados[dados_size] = {0}]. *)
Definition dados_init : list Z := replicate dados_size 0.

(** One iteration of the [while(1)] of [thread_B_code]; [None] while the
    thread waits on [sem_ab]. *)
Definition thread_B_code (st : thread_B_state) : option thread_B_state :=
  match k_sem_take (sem_ab (B_mem st)) with
  | None => None
  | Some s =>
      let g := set_sem_ab s (B_mem st) in
      let d := rotate (ab g) (dados st) in
      let g := set_bc (two_pass d) g in
      let g := set_sem_bc (k_sem_give (sem_bc g)) g in
      Some {| B_mem := g; dados := d |}
  end.

(** ** Thread C: the actuator *)

(** Line 341: [(unsigned int)((pwmPeriod_us*bc)/1023)]; [bc] is converted
    to [unsigned int] for the product. *)
Definition pulse (bc : Z) : Z :=
  Mach.wrap_uint
    (Mach.div_uint (Mach.mul_uint pwmPeriod_us (Mach.wrap_uint bc)) (Mach.wrap_uint 1023)).

(** The outcome of one iteration of the [while(1)] of [thread_C_code]. *)
Inductive thread_C_outcome :=
| C_blocked                                   (* waiting on [sem_bc] *)
| C_set (g : shmem) (period width : Z)        (* pulse width issued, loop continues *)
| C_returned (g : shmem) (period width : Z).  (* the driver failed: the thread returns *)

(** [pwm_pin_set_usec] is the driver's; its return code is a parameter. *)
Definition thread_C_code (pwm_pin_set_usec : Z -> Z -> Z) (g : shmem) : thread_C_outcome :=
  match k_sem_take (sem_bc g) with
  | None => C_blocked
  | Some s =>
      let g := set_sem_bc s g in
      let width := pulse (bc g) in
      let ret := pwm_pin_set_usec pwmPeriod_us width in
      if negb (ret =? 0) then C_returned g pwmPeriod_us width
      else C_set g pwmPeriod_us width
  end.

(** ** The three threads together

    The shared cells and thread B's array, with one transition per loop
    iteration of a thread.  The converter's buffer is a [uint16_t]; the
    return codes of the two drivers are arbitrary.  Thread C stops for
    good when the PWM driver fails. *)

Record system := { mem : shmem; window : list Z; C_running : bool }.

Definition boot : system := {| mem := main; window := dados_init; C_running := true |}.

Inductive step : system -> system -> Prop :=
| step_A err buf s :
    0 <= buf < 2 ^ 16 ->
    step s {| mem := thread_A_sample err buf (mem s); window := window s;
              C_running := C_running s |}
| step_B s st :
    thread_B_code {| B_mem := mem s; dados := window s |} = Some st ->
    step s {| mem := B_mem st; window := dados st; C_running := C_running s |}
| step_C pwm s g period width :
    C_running s = true ->
    thread_C_code pwm (mem s) = C_set g period width ->
    step s {| mem := g; window := window s; C_running := true |}
| step_C_return pwm s g period width :
    C_running s = true ->
    thread_C_code pwm (mem s) = C_returned g period width ->
    step s {| mem := g; window := window s; C_running := false |}.

Definition reachable (s : system) : Prop := rtc step boot s.

(** What every reachable state satisfies: ten 10-bit slots, and 10-bit
    values in both shared cells. *)
Definition valid_sample (v : Z) : Prop := 0 <= v <= MAX_RAW.

Definition valid_window (w : list Z) : Prop :=
  length w = dados_size /\ Forall valid_sample w.

Definition system_inv (s : system) : Prop :=
  valid_window (window s) /\ valid_sample (ab (mem s)) /\ valid_sample (bc (mem s)).

(** Thread B alone, released once per element of [samples], each element
    being the value of [ab] it reads. *)
Definition window_after (samples : list Z) : list Z :=
  foldl (fun d s => rotate s d) dados_init samples.

(** ** The design document's vocabulary *)

(** The last [dados_size] samples, newest first. *)
Definition recency_order (samples : list Z) : list Z :=
  take dados_size (reverse samples).

Definition sumZ (l : list Z) : Z := foldr Z.add 0 l.

(** Arithmetic mean truncated toward zero; 0 for the empty list. *)
Definition mean_trunc (l : list Z) : Z :=
  match l with
  | [] => 0
  | _ => Z.quot (sumZ l) (Z.of_nat (length l))
  end.

(** The trimming band around [avg1], in exact rational arithmetic. *)
Definition below_band (avg1 v : Z) : Prop := (inject_Z v < (9 # 10) * inject_Z avg1)%Q.
Definition above_band (avg1 v : Z) : Prop := ((11 # 10) * inject_Z avg1 < inject_Z v)%Q.
Definition in_band (avg1 v : Z) : Prop := ~ (below_band avg1 v \/ above_band avg1 v).

#[global] Instance below_band_dec avg1 v : Decision (below_band avg1 v).
Proof. unfold below_band, Qlt. apply _. Defined.
#[global] Instance above_band_dec avg1 v : Decision (above_band avg1 v).
Proof. unfold above_band, Qlt. apply _. Defined.
#[global] Instance in_band_dec avg1 v : Decision (in_band avg1 v).
Proof. unfold in_band. apply _. Defined.

(** A window with one slot outside the band around its first-pass value. *)
Definition warm_window : list Z := [100; 102; 98; 101; 99; 120; 97; 103; 100; 98].

(** The exact band again, cross-multiplied, and the table comparing it with
    the [double] test of line 281 on every pair of 10-bit values. *)
Definition outlier_exact (Avg v : Z) : bool := (10 * v <? 9 * Avg) || (11 * Avg <? 10 * v).

Definition band_table_ok (n : nat) : bool :=
  let vs := map (fun v => (v, Double.of_int v)) (map Z.of_nat (seq 0 n)) in
  forallb (fun a =>
    let lo := band_low a in
    let hi := band_high a in
    forallb (fun p => Bool.eqb (Double.ltb (snd p) lo || Double.ltb hi (snd p))
                               (outlier_exact a (fst p))) vs)
    (map Z.of_nat (seq 0 n)).

(** ** Further vocabulary for the pipeline *)

(** Thread A over several cycles; each cycle comes with what the driver
    does in it and the uptime read at its line 216. *)
Definition thread_A_run (adc_dev_bound : bool) (cycles : list (adc_result * Z))
    (st : thread_A_state) : thread_A_state :=
  foldl (fun st c => thread_A_code adc_dev_bound (fst c) (snd c) st) st cycles.

(** Line 347, reached when the driver call succeeded: the value printed
    as the duty, [(pwmPeriod_us*bc)/10023] on [unsigned int]. *)
Definition thread_C_printed (bc : Z) : Z :=
  Mach.div_uint (Mach.mul_uint pwmPeriod_us (Mach.wrap_uint bc)) (Mach.wrap_uint 10023).

(** Both semaphores are created with limit 1 and hold at most one permit. *)
Definition binary_sem (s : k_sem) : Prop := limit s = 1 /\ 0 <= count s <= 1.

Definition sem_inv (g : shmem) : Prop := binary_sem (sem_ab g) /\ binary_sem (sem_bc g).

(** * The clock program (src/Assignement5/src/main.c)

    A second program of the repository: thread [relogio] counts seconds,
    minutes and hours once per period, thread [manual] waits on the semaphore
    [sem_manual] and, once released, steps a PWM duty cycle through a table
    when button 1 was pressed. *)

Module Clock.

(** The globals [seg], [min] and [horas]. *)
Record clock := { seg : Z; min : Z; horas : Z }.

Definition init : clock := {| seg := 0; min := 0; horas := 0 |}.

(** Lines 222-235, the body of the loop of [thread_relogio_code].  Only
    the statement right after an [if] or [else] is guarded: [min=min+1] and
    [horas=horas+1] run in every iteration. *)
Definition thread_relogio_code (c : clock) : clock :=
  let seg := Mach.add_int (seg c) 1 in
  let seg := if seg <? 60 then Mach.add_int seg 1 else 0 in
  let min := Mach.add_int (min c) 1 in
  let min := if min >? 59 then 0 else min in
  let horas := Mach.add_int (horas c) 1 in
  let horas := if horas >? 24 then 0 else horas in
  {| seg := seg; min := min; horas := horas |}.

(** The locals of [thread_manual_code] that outlive an iteration. *)
Record manual := { dcIndex : Z; dcToggleFlag : Z }.

Definition manual_init : manual := {| dcIndex := 0; dcToggleFlag := 0 |}.

Definition pwmPeriod_us : Z := 1000.
Definition dcValue : list Z := [0; 33; 66; 100].

(** Lines 109-116, the button callback. *)
Definition but1press_cbfunction (m : manual) : manual :=
  {| dcIndex := dcIndex m; dcToggleFlag := 1 |}.

Inductive manual_outcome :=
| M_blocked                                                  (* waiting on [sem_manual] *)
| M_idle (sem : k_sem) (m : manual)                          (* no press pending *)
| M_set (sem : k_sem) (m : manual) (period width : Z)        (* pulse width issued *)
| M_returned (sem : k_sem) (m : manual) (period width : Z).  (* driver failed: return *)

(** Lines 175-190, one iteration of the main loop of [thread_manual_code]. *)
Definition thread_manual_code (pwm_pin_set_usec : Z -> Z -> Z)
    (sem_manual : k_sem) (m : manual) : manual_outcome :=
  match k_sem_take sem_manual with
  | None => M_blocked
  | Some sem =>
      if negb (dcToggleFlag m =? 0) then
        let i := Mach.wrap_uint (dcIndex m + 1) in
        let i := if i =? 4 then 0 else i in
        let m := {| dcIndex := i; dcToggleFlag := 0 |} in
        let width :=
          Mach.wrap_uint
            (Mach.div_uint (Mach.mul_uint pwmPeriod_us (dcValue !!! Z.to_nat i))
                           (Mach.wrap_uint 100)) in
        if negb (pwm_pin_set_usec pwmPeriod_us width =? 0)
        then M_returned sem m pwmPeriod_us width
        else M_set sem m pwmPeriod_us width
      else M_idle sem m
  end.

(** The two threads and the button together; [issued] collects the pulse
    widths handed to the PWM driver.  [main] creates [sem_manual] with no
    permit; the only [k_sem_give] of the file stands after the [return] of
    [thread_manual_code] (line 195). *)
Record system := {
  clk : clock;
  sem_manual : k_sem;
  man : manual;
  manual_running : bool;
  issued : list Z
}.

Definition boot : system :=
  {| clk := init; sem_manual := k_sem_init 0 1; man := manual_init;
     manual_running := true; issued := [] |}.

Inductive step : system -> system -> Prop :=
| step_relogio s :
    step s {| clk := thread_relogio_code (clk s); sem_manual := sem_manual s;
              man := man s; manual_running := manual_running s; issued := issued s |}
| step_button s :
    step s {| clk := clk s; sem_manual := sem_manual s;
              man := but1press_cbfunction (man s);
              manual_running := manual_running s; issued := issued s |}
| step_manual_idle pwm s sem m :
    manual_running s = true ->
    thread_manual_code pwm (sem_manual s) (man s) = M_idle sem m ->
    step s {| clk := clk s; sem_manual := sem; man := m;
              manual_running := true; issued := issued s |}
| step_manual_set pwm s sem m period width :
    manual_running s = true ->
    thread_manual_code pwm (sem_manual s) (man s) = M_set sem m period width ->
    step s {| clk := clk s; sem_manual := sem; man := m;
              manual_running := true; issued := width :: issued s |}
| step_manual_return pwm s sem m period width :
    manual_running s = true ->
    thread_manual_code pwm (sem_manual s) (man s) = M_returned sem m period width ->
    step s {| clk := clk s; sem_manual := sem; man := m;
              manual_running := false; issued := width :: issued s |}.

Definition reachable (s : system) : Prop := rtc step boot s.

End Clock.

(** * Proofs *)

(** Case analysis on an array of [dados_size] slots, and validity of a
    literal window. *)
Ltac window_cases w Hlen :=
  unfold dados_size in Hlen;
  do 10 (destruct w as [|? w]; [discriminate Hlen|]);
  destruct w; [|discriminate Hlen].

Ltac solve_valid_window :=
  split;
  [reflexivity
  |repeat (apply Forall_cons; split; [unfold valid_sample, MAX_RAW; lia|]); constructor].

(** ** Machine arithmetic without overflow *)

Section mach_facts.
Import Mach.

Lemma wrap_int_small z : in_int z -> wrap_int z = z.
Proof.
  unfold in_int, INT_MIN, INT_MAX, wrap_int, UINT_MOD. intros Hz.
  rewrite Z.mod_small; lia.
Qed.

Lemma wrap_uint_small z : 0 <= z < UINT_MOD -> wrap_uint z = z.
Proof. unfold wrap_uint. intros Hz. apply Z.mod_small, Hz. Qed.

Lemma wrap_int64_small z : - 2 ^ 63 <= z < 2 ^ 63 -> wrap_int64 z = z.
Proof.
  unfold wrap_int64, INT64_MOD. intros Hz. rewrite Z.mod_small; lia.
Qed.

(** Wrapping an intermediate sum does not change the wrapped total. *)
Lemma wrap_int_add_l x y : wrap_int (wrap_int x + y) = wrap_int (x + y).
Proof.
  unfold wrap_int, UINT_MOD.
  replace ((x + 2 ^ 31) mod 2 ^ 32 - 2 ^ 31 + y + 2 ^ 31)
    with ((x + 2 ^ 31) mod 2 ^ 32 + y) by lia.
  rewrite Zplus_mod_idemp_l. f_equal. f_equal. lia.
Qed.

Lemma add_int_swap s a b : add_int (add_int s a) b = add_int (add_int s b) a.
Proof.
  unfold add_int. rewrite !wrap_int_add_l. f_equal. lia.
Qed.

Lemma add_int_small a b : in_int (a + b) -> add_int a b = a + b.
Proof. apply wrap_int_small. Qed.

End mach_facts.

(** ** Loops over the array and folds over its content *)

Lemma foldl_seq_lookup_from {A} (f : A -> Z -> A) (w pre : list Z) (a : A) :
  foldl (fun acc i => f acc ((pre ++ w) !!! i)) a (seq (length pre) (length w))
  = foldl f a w.
Proof.
  revert pre a. induction w as [|x w IH]; intros pre a; [reflexivity|].
  cbn [length seq foldl].
  rewrite list_lookup_total_middle by reflexivity.
  specialize (IH (pre ++ [x]) (f a x)).
  rewrite <- app_assoc, length_app in IH. cbn [length app] in IH.
  rewrite Nat.add_1_r in IH. exact IH.
Qed.

Lemma foldl_seq_lookup {A} (f : A -> Z -> A) (w : list Z) (a : A) :
  foldl (fun acc i => f acc (w !!! i)) a (seq 0 (length w)) = foldl f a w.
Proof. apply (foldl_seq_lookup_from f w [] a). Qed.

Lemma pass1_loop_fold w :
  length w = dados_size -> pass1_loop w = foldl pass1_body (0, 0) w.
Proof. intros Hlen. unfold pass1_loop. rewrite <- Hlen. apply foldl_seq_lookup. Qed.

Lemma pass2_loop_fold w Avg :
  length w = dados_size -> pass2_loop w Avg = foldl (pass2_body Avg) (0, 0) w.
Proof.
  intros Hlen. unfold pass2_loop. rewrite <- Hlen.
  apply (foldl_seq_lookup (pass2_body Avg)).
Qed.

(** A fold whose steps commute does not see the order of the list. *)
Lemma foldl_commute_perm {A B} (f : A -> B -> A) (l l' : list B) :
  (forall a x y, f (f a x) y = f (f a y) x) ->
  l ≡ₚ l' -> forall a, foldl f a l = foldl f a l'.
Proof.
  intros Hf Hp. induction Hp as [|x l l' _ IH|x y l|l l' l'' _ IH1 _ IH2]; intros a; cbn [foldl].
  - reflexivity.
  - apply IH.
  - now rewrite Hf.
  - now rewrite IH1.
Qed.

Lemma pass1_body_swap acc x y :
  pass1_body (pass1_body acc x) y = pass1_body (pass1_body acc y) x.
Proof.
  destruct acc as [s c]. unfold pass1_body.
  destruct (negb (x =? 0)), (negb (y =? 0)); try reflexivity.
  f_equal; apply add_int_swap.
Qed.

Lemma pass2_body_swap Avg acc x y :
  pass2_body Avg (pass2_body Avg acc x) y = pass2_body Avg (pass2_body Avg acc y) x.
Proof.
  destruct acc as [s c]. unfold pass2_body.
  destruct (outlier Avg x), (outlier Avg y); try reflexivity.
  f_equal; apply add_int_swap.
Qed.

(** ** Sums and counts of 10-bit samples *)

Lemma sumZ_bounds l :
  Forall valid_sample l -> 0 <= sumZ l <= MAX_RAW * Z.of_nat (length l).
Proof.
  unfold valid_sample, MAX_RAW.
  induction 1 as [|x l Hx _ IH]; cbn [sumZ foldr length]; [lia|].
  fold (sumZ l). lia.
Qed.

Lemma Forall_valid_filter (P : Z -> Prop) `{!forall v, Decision (P v)} l :
  Forall valid_sample l -> Forall valid_sample (filter P l).
Proof.
  rewrite !Forall_forall. intros Hl v Hv.
  apply list_elem_of_filter in Hv as [_ Hv]. auto.
Qed.

Lemma mean_trunc_range l : Forall valid_sample l -> valid_sample (mean_trunc l).
Proof.
  intros Hl. pose proof (sumZ_bounds l Hl) as Hs. unfold valid_sample, MAX_RAW in *.
  destruct l as [|x l]; [cbn; lia|].
  unfold mean_trunc. set (n := Z.of_nat (length (x :: l))) in *.
  assert (0 < n) by (subst n; cbn [length]; lia).
  rewrite Z.quot_div_nonneg by lia. split.
  - apply Z.div_pos; lia.
  - apply Z.div_le_upper_bound; lia.
Qed.

Section conditional_sum.
Import Mach.

(** A loop body that adds the slots satisfying [P] and counts them. *)
Variable body : Z * Z -> Z -> Z * Z.
Variable P : Z -> Prop.
Context `{!forall v, Decision (P v)}.
Hypothesis body_spec : forall s c v,
  valid_sample v ->
  body (s, c) v = if decide (P v) then (add_int s v, add_int c 1) else (s, c).

Lemma conditional_sum_fold l : forall s c,
  Forall valid_sample l ->
  0 <= s -> 0 <= c ->
  s + MAX_RAW * Z.of_nat (length l) <= INT_MAX ->
  c + Z.of_nat (length l) <= INT_MAX ->
  foldl body (s, c) l
  = (s + sumZ (filter P l), c + Z.of_nat (length (filter P l))).
Proof.
  unfold INT_MAX, MAX_RAW.
  induction l as [|x l IH]; intros s c Hl Hs Hc Hsb Hcb.
  - cbn. f_equal; lia.
  - apply Forall_cons in Hl as [Hx Hl]. cbn [foldl length] in *.
    rewrite body_spec by exact Hx. rewrite filter_cons.
    unfold valid_sample, MAX_RAW in Hx.
    destruct (decide (P x)).
    + rewrite !add_int_small by (unfold in_int, INT_MIN, INT_MAX; lia).
      rewrite IH by (try assumption; lia).
      cbn [sumZ foldr length]. fold (sumZ (filter P l)). f_equal; lia.
    + rewrite IH by (try assumption; lia). reflexivity.
Qed.

Lemma conditional_sum_window w :
  valid_window w ->
  foldl body (0, 0) w = (sumZ (filter P w), Z.of_nat (length (filter P w))).
Proof.
  intros [Hlen Hw].
  rewrite conditional_sum_fold; try assumption; try reflexivity;
    rewrite Hlen; unfold MAX_RAW, INT_MAX, dados_size; lia.
Qed.

(** The quotient of the loop's sum by its count is the truncated mean of
    the slots satisfying [P]. *)
Lemma conditional_average w :
  valid_window w ->
  (let '(sum, cnt) := foldl body (0, 0) w in average sum cnt)
  = mean_trunc (filter P w).
Proof.
  intros Hw. rewrite conditional_sum_window by exact Hw.
  pose proof (mean_trunc_range (filter P w)
                (Forall_valid_filter P w (proj2 Hw))) as Hr.
  unfold average, mean_trunc in *. destruct (filter P w) as [|x k]; [reflexivity|].
  replace (Z.of_nat (length (x :: k)) =? 0) with false
    by (symmetry; apply Z.eqb_neq; cbn [length]; lia).
  cbn [negb]. unfold div_int. apply wrap_int_small.
  unfold valid_sample, MAX_RAW, in_int, INT_MIN, INT_MAX in *. lia.
Qed.

End conditional_sum.

(** ** The [double] test against the exact band *)

Lemma band_table : band_table_ok 1024 = true.
Proof. vm_compute. reflexivity. Qed.

Lemma in_range_1024 v : valid_sample v -> In v (map Z.of_nat (seq 0 1024)).
Proof.
  unfold valid_sample, MAX_RAW. intros Hv. apply in_map_iff.
  exists (Z.to_nat v). split; [lia|]. apply in_seq. lia.
Qed.

Lemma band_table_sound n Avg v :
  band_table_ok n = true ->
  In Avg (map Z.of_nat (seq 0 n)) -> In v (map Z.of_nat (seq 0 n)) ->
  outlier Avg v = outlier_exact Avg v.
Proof.
  unfold band_table_ok. cbv zeta. intros T HA Hv.
  rewrite forallb_forall in T. specialize (T Avg HA).
  rewrite forallb_forall in T.
  specialize (T (v, Double.of_int v)). cbv beta in T. cbn [fst snd] in T.
  apply Bool.eqb_prop. apply T.
  apply in_map_iff. exists v. split; [reflexivity|exact Hv].
Qed.

(** On 10-bit values the rounding of [Avg*0.1] never moves a slot across
    the edge of the band. *)
Lemma outlier_is_exact Avg v :
  valid_sample Avg -> valid_sample v -> outlier Avg v = outlier_exact Avg v.
Proof.
  intros HA Hv.
  apply (band_table_sound 1024 Avg v band_table); apply in_range_1024; assumption.
Qed.

Lemma outlier_exact_band Avg v :
  outlier_exact Avg v = true <-> below_band Avg v \/ above_band Avg v.
Proof.
  unfold outlier_exact, below_band, above_band, Qlt. cbn.
  rewrite orb_true_iff, !Z.ltb_lt. lia.
Qed.

Lemma outlier_in_band Avg v :
  valid_sample Avg -> valid_sample v -> (outlier Avg v = false <-> in_band Avg v).
Proof.
  intros HA Hv. rewrite (outlier_is_exact Avg v HA Hv). unfold in_band.
  rewrite <- outlier_exact_band. destruct (outlier_exact Avg v); intuition congruence.
Qed.

Lemma pass1_body_spec s c v :
  pass1_body (s, c) v
  = if decide (v <> 0) then (Mach.add_int s v, Mach.add_int c 1) else (s, c).
Proof.
  unfold pass1_body. destruct (Z.eqb_spec v 0), (decide (v <> 0)); cbn [negb];
    first [reflexivity | contradiction].
Qed.

Lemma pass2_body_spec Avg s c v :
  valid_sample Avg -> valid_sample v ->
  pass2_body Avg (s, c) v
  = if decide (in_band Avg v) then (Mach.add_int s v, Mach.add_int c 1) else (s, c).
Proof.
  intros HA Hv. unfold pass2_body. pose proof (outlier_in_band Avg v HA Hv) as Hb.
  destruct (outlier Avg v), (decide (in_band Avg v)); try reflexivity.
  - exfalso. apply Hb in i. discriminate.
  - exfalso. apply n, Hb. reflexivity.
Qed.

(** ** The two passes on a window of 10-bit samples *)

Lemma pass1_mean w :
  valid_window w -> pass1 w = mean_trunc (filter (fun v => v <> 0) w).
Proof.
  intros Hw. unfold pass1. rewrite pass1_loop_fold by apply Hw.
  apply (conditional_average pass1_body (fun v => v <> 0)); [|exact Hw].
  intros s c v _. apply pass1_body_spec.
Qed.

Lemma pass1_range w : valid_window w -> valid_sample (pass1 w).
Proof.
  intros Hw. rewrite pass1_mean by exact Hw.
  apply mean_trunc_range, Forall_valid_filter, Hw.
Qed.

Lemma pass2_sums w Avg :
  valid_window w -> valid_sample Avg ->
  pass2_loop w Avg
  = (sumZ (filter (in_band Avg) w), Z.of_nat (length (filter (in_band Avg) w))).
Proof.
  intros Hw HA. rewrite pass2_loop_fold by apply Hw.
  apply (conditional_sum_window (pass2_body Avg) (in_band Avg)); [|exact Hw].
  intros s c v Hv. apply pass2_body_spec; assumption.
Qed.

Lemma pass2_mean w Avg :
  valid_window w -> valid_sample Avg ->
  pass2 w Avg = mean_trunc (filter (in_band Avg) w).
Proof.
  intros Hw HA. unfold pass2. rewrite pass2_loop_fold by apply Hw.
  apply (conditional_average (pass2_body Avg) (in_band Avg)); [|exact Hw].
  intros s c v Hv. apply pass2_body_spec; assumption.
Qed.

Lemma two_pass_range w : valid_window w -> valid_sample (two_pass w).
Proof.
  intros Hw. unfold two_pass.
  rewrite pass2_mean by (try apply pass1_range; exact Hw).
  apply mean_trunc_range, Forall_valid_filter, Hw.
Qed.

(** ** The array update *)

Lemma rotate_window ab w :
  length w = dados_size ->
  rotate ab w = w !!! 9%nat :: ab :: take 8 (drop 1 w).
Proof. intros Hlen. window_cases w Hlen. reflexivity. Qed.

Lemma shift_loop_length l : forall d, length (shift_loop l d) = length d.
Proof.
  induction l as [|l IH]; intros d; cbn [shift_loop]; [reflexivity|].
  rewrite IH. apply length_insert.
Qed.

Lemma rotate_length ab w : length (rotate ab w) = length w.
Proof.
  unfold rotate. rewrite length_insert, shift_loop_length. apply length_insert.
Qed.

Lemma rotate_valid ab w :
  valid_window w -> valid_sample ab -> valid_window (rotate ab w).
Proof.
  intros [Hlen Hw] Hab. split; [rewrite rotate_length; exact Hlen|].
  rewrite rotate_window by exact Hlen.
  window_cases w Hlen. do 10 (apply Forall_cons in Hw as [? Hw]).
  cbn. repeat (apply Forall_cons; split; [assumption|]). constructor.
Qed.

Lemma window_after_length samples : length (window_after samples) = dados_size.
Proof.
  unfold window_after. generalize dados_init (eq_refl : length dados_init = dados_size).
  induction samples as [|x samples IH]; intros d Hd; cbn [foldl]; [exact Hd|].
  apply IH. rewrite rotate_length. exact Hd.
Qed.

Lemma window_after_app pre post :
  window_after (pre ++ post) = foldl (fun d s => rotate s d) (window_after pre) post.
Proof. unfold window_after. apply foldl_app. Qed.

(** Ten releases overwrite the whole array, whatever it held. *)
Lemma ten_rotations w s1 s2 s3 s4 s5 s6 s7 s8 s9 s10 :
  length w = dados_size ->
  foldl (fun d s => rotate s d) w [s1; s2; s3; s4; s5; s6; s7; s8; s9; s10]
  = [s1; s10; s9; s8; s7; s6; s5; s4; s3; s2].
Proof. intros Hlen. window_cases w Hlen. reflexivity. Qed.

(** ** The threads and the invariant *)

Lemma thread_B_code_Some st st' :
  thread_B_code st = Some st' ->
  0 < count (sem_ab (B_mem st))
  /\ dados st' = rotate (ab (B_mem st)) (dados st)
  /\ bc (B_mem st') = two_pass (dados st')
  /\ ab (B_mem st') = ab (B_mem st).
Proof.
  unfold thread_B_code, k_sem_take.
  destruct (Z.ltb_spec 0 (count (sem_ab (B_mem st)))) as [Hc|Hc]; [|discriminate].
  intros [= <-]. cbn. auto.
Qed.

Lemma thread_A_sample_ab err buf g :
  ab (thread_A_sample err buf g)
  = if (err =? 0) && (buf <=? 1023) then buf else ab g.
Proof.
  unfold thread_A_sample.
  destruct (Z.eqb_spec err 0); cbn [negb andb]; [|reflexivity].
  rewrite Z.gtb_ltb.
  destruct (Z.ltb_spec 1023 buf), (Z.leb_spec buf 1023); try lia; reflexivity.
Qed.

Lemma thread_A_sample_bc err buf g : bc (thread_A_sample err buf g) = bc g.
Proof.
  unfold thread_A_sample.
  destruct (negb (err =? 0)); [reflexivity|]. destruct (buf >? 1023); reflexivity.
Qed.

Lemma thread_A_sample_sem err buf g :
  sem_ab (thread_A_sample err buf g) = k_sem_give (sem_ab g).
Proof.
  unfold thread_A_sample.
  destruct (negb (err =? 0)); [reflexivity|]. destruct (buf >? 1023); reflexivity.
Qed.

Lemma thread_C_code_mem pwm g g' period width :
  thread_C_code pwm g = C_set g' period width
  \/ thread_C_code pwm g = C_returned g' period width ->
  ab g' = ab g /\ bc g' = bc g /\ period = pwmPeriod_us /\ width = pulse (bc g).
Proof.
  unfold thread_C_code. destruct (k_sem_take (sem_bc g)) as [s|]; [|intros [?|?]; discriminate].
  destruct (negb (_ =? 0)); intros [H|H]; inversion H; subst; cbn; auto.
Qed.

Lemma system_inv_boot : system_inv boot.
Proof.
  unfold system_inv, valid_window, valid_sample, MAX_RAW. cbn.
  repeat split; try lia. repeat constructor; lia.
Qed.

Lemma system_inv_step s s' : system_inv s -> step s s' -> system_inv s'.
Proof.
  intros (Hw & Hab & Hbc) Hstep. unfold system_inv.
  destruct Hstep as [err buf s Hbuf|s st HB|pwm s g p wd _ HC|pwm s g p wd _ HC];
    cbn [mem window].
  - rewrite thread_A_sample_ab, thread_A_sample_bc.
    split; [exact Hw|split; [|exact Hbc]].
    destruct (err =? 0); cbn [andb]; [|exact Hab].
    destruct (Z.leb_spec buf 1023); [|exact Hab].
    unfold valid_sample, MAX_RAW. lia.
  - apply thread_B_code_Some in HB as (_ & Hd & Hb & Ha). cbn [B_mem dados] in *.
    assert (valid_window (dados st)) as Hw'
      by (rewrite Hd; apply rotate_valid; assumption).
    rewrite Hb, Ha. split; [exact Hw'|split; [exact Hab|]].
    apply two_pass_range, Hw'.
  - destruct (thread_C_code_mem pwm (mem s) g p wd (or_introl HC)) as (-> & -> & _).
    split; [exact Hw|split; [exact Hab|exact Hbc]].
  - destruct (thread_C_code_mem pwm (mem s) g p wd (or_intror HC)) as (-> & -> & _).
    split; [exact Hw|split; [exact Hab|exact Hbc]].
Qed.

Lemma system_inv_reachable s : reachable s -> system_inv s.
Proof.
  unfold reachable. revert s. apply (rtc_ind_r system_inv boot).
  - apply system_inv_boot.
  - intros y z _ Hstep IH. exact (system_inv_step y z IH Hstep).
Qed.

(** * The claims *)

Example warm_window_passes :
  pass1 warm_window = 101
  /\ filter (in_band 101) warm_window = [100; 102; 98; 101; 99; 97; 103; 100; 98]
  /\ pass2_loop warm_window 101 = (898, 9)
  /\ two_pass warm_window = 99.
Proof. vm_compute. auto. Qed.

Lemma warm_window_valid : valid_window warm_window.
Proof. unfold warm_window. solve_valid_window. Qed.

(** ** C1: content of the window *)

Lemma last_ten (samples : list Z) :
  (dados_size <= length samples)%nat ->
  exists pre s1 s2 s3 s4 s5 s6 s7 s8 s9 s10,
    samples = pre ++ [s1; s2; s3; s4; s5; s6; s7; s8; s9; s10].
Proof.
  unfold dados_size. intros Hk.
  pose proof (take_drop (length samples - 10) samples) as Hsplit.
  assert (length (drop (length samples - 10) samples) = dados_size) as Hlen
    by (rewrite length_drop; unfold dados_size; lia).
  revert Hsplit Hlen. generalize (drop (length samples - 10) samples) as l.
  intros l Hsplit Hlen. window_cases l Hlen.
  exists (take (length samples - 10) samples). do 10 eexists. symmetry. exact Hsplit.
Qed.

Lemma recency_order_last_ten (pre : list Z) s1 s2 s3 s4 s5 s6 s7 s8 s9 s10 :
  recency_order (pre ++ [s1; s2; s3; s4; s5; s6; s7; s8; s9; s10])
  = [s10; s9; s8; s7; s6; s5; s4; s3; s2; s1].
Proof. unfold recency_order. rewrite reverse_app. reflexivity. Qed.

(** C1, as written, fails: after the ten samples 1, 2, ..., 10 the array is
    not the recency order [10; 9; ...; 1]; slot 0 holds the oldest of them
    and the newest sits in slot 1. *)
Lemma window_not_recency_order :
  let samples := [1; 2; 3; 4; 5; 6; 7; 8; 9; 10] in
  Forall valid_sample samples
  /\ (dados_size <= length samples)%nat
  /\ window_after samples = [1; 10; 9; 8; 7; 6; 5; 4; 3; 2]
  /\ recency_order samples = [10; 9; 8; 7; 6; 5; 4; 3; 2; 1]
  /\ window_after samples <> recency_order samples
  /\ rotate 10 (window_after [1; 2; 3; 4; 5; 6; 7; 8; 9]) !! 0%nat <> Some 10.
Proof.
  cbv zeta. split; [|split; [|split; [|split; [|split]]]].
  - repeat (apply Forall_cons; split; [unfold valid_sample, MAX_RAW; lia|]). constructor.
  - unfold dados_size. cbn. lia.
  - reflexivity.
  - reflexivity.
  - vm_compute. discriminate.
  - vm_compute. discriminate.
Qed.

(** C1, amended: once at least ten samples were consumed the array holds
    exactly the last ten of them, the oldest in slot 0 and the other nine
    from slot 1 on, newest first (the recency order turned by one place);
    a release writes the new sample to slot 1, moves the last slot to slot 0
    and drops what slot 0 held, which is the oldest sample. *)
Theorem window_after_ten_samples (samples : list Z)
    (Hk : (dados_size <= length samples)%nat) :
  window_after samples
  = drop 9 (recency_order samples) ++ take 9 (recency_order samples)
  /\ window_after samples ≡ₚ recency_order samples
  /\ window_after samples !! 1%nat = last samples
  /\ window_after samples !! 0%nat = recency_order samples !! 9%nat
  /\ forall ab,
       rotate ab (window_after samples)
       = window_after samples !!! 9%nat :: ab :: take 8 (drop 1 (window_after samples)).
Proof.
  destruct (last_ten samples Hk)
    as (pre & s1 & s2 & s3 & s4 & s5 & s6 & s7 & s8 & s9 & s10 & ->).
  rewrite recency_order_last_ten.
  assert (window_after (pre ++ [s1; s2; s3; s4; s5; s6; s7; s8; s9; s10])
          = [s1; s10; s9; s8; s7; s6; s5; s4; s3; s2]) as ->.
  { rewrite window_after_app. apply ten_rotations, window_after_length. }
  split; [reflexivity|]. split.
  { apply (Permutation_app_comm [s1] [s10; s9; s8; s7; s6; s5; s4; s3; s2]). }
  split.
  { rewrite last_app. reflexivity. }
  split; [reflexivity|]. intros ab. reflexivity.
Qed.

Lemma window_after_ten_samples_witness :
  (dados_size <= length [7; 8; 1; 2; 3; 4; 5; 6; 7; 8; 9; 10])%nat
  /\ window_after [7; 8; 1; 2; 3; 4; 5; 6; 7; 8; 9; 10]
     = drop 9 (recency_order [7; 8; 1; 2; 3; 4; 5; 6; 7; 8; 9; 10])
       ++ take 9 (recency_order [7; 8; 1; 2; 3; 4; 5; 6; 7; 8; 9; 10]).
Proof.
  assert ((dados_size <= length [7; 8; 1; 2; 3; 4; 5; 6; 7; 8; 9; 10])%nat) as Hk
    by (unfold dados_size; cbn; lia).
  split; [exact Hk|].
  exact (proj1 (window_after_ten_samples [7; 8; 1; 2; 3; 4; 5; 6; 7; 8; 9; 10] Hk)).
Defined.

(** ** C3: the first pass *)

Lemma filter_nonzero_all_zero (w : list Z) :
  Forall (fun v => v = 0) w -> filter (fun v => v <> 0) w = [].
Proof.
  induction 1 as [|x l Hx _ IH]; [reflexivity|].
  rewrite filter_cons_False by (intros Hn; apply Hn, Hx). exact IH.
Qed.

(** C3: on every window, the first pass adds up and counts the non-zero
    slots, and its value is their arithmetic mean truncated toward zero; it
    is 0 when every slot is zero. *)
Theorem pass1_truncated_mean (w : list Z) (Hw : valid_window w) :
  pass1_loop w
  = (sumZ (filter (fun v => v <> 0) w),
     Z.of_nat (length (filter (fun v => v <> 0) w)))
  /\ pass1 w = mean_trunc (filter (fun v => v <> 0) w)
  /\ (Forall (fun v => v = 0) w -> pass1 w = 0).
Proof.
  split; [|split].
  - rewrite pass1_loop_fold by apply Hw.
    apply (conditional_sum_window pass1_body (fun v => v <> 0)); [|exact Hw].
    intros s c v _. apply pass1_body_spec.
  - apply pass1_mean, Hw.
  - intros Hz. rewrite pass1_mean by exact Hw.
    rewrite filter_nonzero_all_zero by exact Hz. reflexivity.
Qed.

Lemma pass1_truncated_mean_witness :
  valid_window warm_window
  /\ pass1 warm_window = mean_trunc (filter (fun v => v <> 0) warm_window).
Proof.
  assert (valid_window warm_window) as Hw by (unfold warm_window; solve_valid_window).
  split; [exact Hw|].
  exact (proj1 (proj2 (pass1_truncated_mean warm_window Hw))).
Defined.

(** ** C2: the second pass *)

Lemma in_band_zero v : in_band 0 v <-> v = 0.
Proof.
  unfold in_band, below_band, above_band, Qlt. cbn. lia.
Qed.

(** C2: on every window, with [avg1] the value of the first pass held fixed,
    the second pass leaves out exactly the slots [v] with [v < 0.9 avg1] or
    [v > 1.1 avg1], adds up and counts the others, and its value is their sum
    divided by their number, truncated toward zero, or 0 when there is none;
    when [avg1 = 0] the slots kept are the zero slots. *)
Theorem pass2_trimmed_mean (w : list Z) (Hw : valid_window w) :
  let avg1 := pass1 w in
  let kept := filter (in_band avg1) w in
  (forall v, v ∈ w ->
     (outlier avg1 v = true <-> below_band avg1 v \/ above_band avg1 v))
  /\ pass2_loop w avg1 = (sumZ kept, Z.of_nat (length kept))
  /\ two_pass w = mean_trunc kept
  /\ (kept <> [] -> two_pass w = Z.quot (sumZ kept) (Z.of_nat (length kept)))
  /\ (kept = [] -> two_pass w = 0)
  /\ (avg1 = 0 -> kept = filter (fun v => v = 0) w).
Proof.
  intros avg1 kept. pose proof (pass1_range w Hw) as HA. fold avg1 in HA.
  assert (two_pass w = mean_trunc kept) as Hmean
    by (unfold two_pass; apply pass2_mean; assumption).
  split; [|split; [|split; [|split; [|split]]]].
  - intros v Hv.
    assert (valid_sample v) as Hvs
      by (destruct Hw as [_ Hall]; rewrite Forall_forall in Hall; apply Hall, Hv).
    rewrite (outlier_is_exact avg1 v HA Hvs). apply outlier_exact_band.
  - apply pass2_sums; assumption.
  - exact Hmean.
  - intros Hne. rewrite Hmean. unfold mean_trunc. destruct kept; [contradiction|reflexivity].
  - intros He. rewrite Hmean, He. reflexivity.
  - intros H0. subst kept. rewrite H0. apply list_filter_iff. intros v. apply in_band_zero.
Qed.

Lemma pass2_trimmed_mean_witness :
  valid_window warm_window
  /\ two_pass warm_window
     = mean_trunc (filter (in_band (pass1 warm_window)) warm_window).
Proof.
  assert (valid_window warm_window) as Hw by (unfold warm_window; solve_valid_window).
  split; [exact Hw|].
  exact (proj1 (proj2 (proj2 (pass2_trimmed_mean warm_window Hw)))).
Defined.

(** ** C6: range of the filtered value *)

(** C6: on every window of 10-bit slots one filter step yields a value in
    [0, MAX_RAW]; [bc] is 0 before the first step; and the range is kept by
    every iteration: in every reachable state the window is made of 10-bit
    slots and [bc] is in range. *)
Theorem filtered_value_range (w : list Z) (ab0 : Z)
    (Hw : valid_window w) (Hab : valid_sample ab0) :
  bc main = 0
  /\ valid_sample (two_pass w)
  /\ valid_window (rotate ab0 w)
  /\ valid_sample (two_pass (rotate ab0 w))
  /\ (forall s, reachable s ->
        valid_window (window s) /\ valid_sample (ab (mem s)) /\ valid_sample (bc (mem s)))
  /\ (forall s st, reachable s ->
        thread_B_code {| B_mem := mem s; dados := window s |} = Some st ->
        valid_window (dados st) /\ 0 <= bc (B_mem st) <= MAX_RAW).
Proof.
  split; [reflexivity|]. split; [apply two_pass_range, Hw|].
  split; [apply rotate_valid; assumption|].
  split; [apply two_pass_range, rotate_valid; assumption|].
  split; [intros s Hs; apply system_inv_reachable, Hs|].
  intros s st Hs HB.
  assert (step s {| mem := B_mem st; window := dados st; C_running := C_running s |})
    as Hstep by (apply step_B, HB).
  destruct (system_inv_step _ _ (system_inv_reachable s Hs) Hstep) as (Hw' & _ & Hbc).
  split; [exact Hw'|exact Hbc].
Qed.

Lemma filtered_value_range_witness :
  valid_window warm_window /\ valid_sample 500
  /\ valid_sample (two_pass (rotate 500 warm_window)).
Proof.
  assert (valid_window warm_window) as Hw by (unfold warm_window; solve_valid_window).
  assert (valid_sample 500) as Hab by (unfold valid_sample, MAX_RAW; lia).
  split; [exact Hw|]. split; [exact Hab|].
  exact (proj1 (proj2 (proj2 (proj2 (filtered_value_range warm_window 500 Hw Hab))))).
Defined.

(** ** C9: the order of the slots does not matter *)

(** C9: two windows that are permutations of each other give the same
    sums and counts in both passes, hence the same filtered value. *)
Theorem two_pass_permutation (w w' : list Z)
    (Hlen : length w = dados_size) (Hp : w ≡ₚ w') :
  pass1_loop w = pass1_loop w'
  /\ pass1 w = pass1 w'
  /\ (forall Avg, pass2_loop w Avg = pass2_loop w' Avg)
  /\ two_pass w = two_pass w'.
Proof.
  assert (length w' = dados_size) as Hlen'
    by (rewrite <- Hlen; symmetry; apply Permutation_length, Hp).
  assert (pass1_loop w = pass1_loop w') as H1.
  { rewrite !pass1_loop_fold by assumption.
    apply foldl_commute_perm; [apply pass1_body_swap|exact Hp]. }
  assert (forall Avg, pass2_loop w Avg = pass2_loop w' Avg) as H2.
  { intros Avg. rewrite !pass2_loop_fold by assumption.
    apply foldl_commute_perm; [apply pass2_body_swap|exact Hp]. }
  assert (pass1 w = pass1 w') as H3 by (unfold pass1; rewrite H1; reflexivity).
  split; [exact H1|]. split; [exact H3|]. split; [exact H2|].
  unfold two_pass, pass2. rewrite H3, H2. reflexivity.
Qed.

Lemma two_pass_permutation_witness :
  length warm_window = dados_size
  /\ warm_window ≡ₚ reverse warm_window
  /\ two_pass warm_window = two_pass (reverse warm_window).
Proof.
  assert (length warm_window = dados_size) as Hlen by reflexivity.
  assert (warm_window ≡ₚ reverse warm_window) as Hp
    by (symmetry; apply reverse_Permutation).
  split; [exact Hlen|]. split; [exact Hp|].
  exact (proj2 (proj2 (proj2
           (two_pass_permutation warm_window (reverse warm_window) Hlen Hp)))).
Defined.

(** ** C4: a cycle without a valid reading *)

(** C4, as written, fails: from the initial state, a cycle whose read
    fails with code -5 leaves [ab] alone but still gives [sem_ab], so the
    semaphore differs from its previous state and thread B is released. *)
Lemma failed_read_still_signals :
  let g := thread_A_sample (-5) 0 main in
  (-5 <> 0 \/ 0 > 1023)
  /\ ab g = ab main
  /\ count (sem_ab main) = 0
  /\ count (sem_ab g) = 1
  /\ sem_ab g <> sem_ab main
  /\ thread_B_code {| B_mem := g; dados := dados_init |} <> None
  /\ A_mem (thread_A_code true {| adc_ret := -5; adc_buffer0 := 0 |} 400
              (thread_A_init 0 main)) = g.
Proof.
  cbv zeta. split; [left; lia|]. split; [reflexivity|]. split; [reflexivity|].
  split; [reflexivity|]. split; [vm_compute; discriminate|].
  split; [vm_compute; discriminate|]. reflexivity.
Qed.

(** C4, amended: in a cycle whose read fails or whose reading exceeds
    1023 the cell [ab] keeps its previous value, and [ab] is only ever
    written with a successful reading of at most 1023; the semaphore
    [sem_ab] is given in every cycle, whether the reading was stored or not. *)
Theorem sampler_invalid_cycle (g : shmem) (err buf : Z)
    (Hbad : err <> 0 \/ buf > 1023) :
  ab (thread_A_sample err buf g) = ab g
  /\ sem_ab (thread_A_sample err buf g) = k_sem_give (sem_ab g)
  /\ (forall err' buf',
        ab (thread_A_sample err' buf' g) <> ab g ->
        err' = 0 /\ buf' <= 1023 /\ ab (thread_A_sample err' buf' g) = buf')
  /\ (forall err' buf',
        sem_ab (thread_A_sample err' buf' g) = k_sem_give (sem_ab g)).
Proof.
  split; [|split; [|split]].
  - rewrite thread_A_sample_ab.
    destruct (Z.eqb_spec err 0); cbn [andb]; [|reflexivity].
    destruct (Z.leb_spec buf 1023); [lia|reflexivity].
  - apply thread_A_sample_sem.
  - intros err' buf'. rewrite thread_A_sample_ab.
    destruct (Z.eqb_spec err' 0); cbn [andb]; [|congruence].
    destruct (Z.leb_spec buf' 1023); [auto|congruence].
  - intros err' buf'. apply thread_A_sample_sem.
Qed.

Lemma sampler_invalid_cycle_witness :
  (0 <> 0 \/ 2000 > 1023)
  /\ ab (thread_A_sample 0 2000 (set_ab 512 main)) = ab (set_ab 512 main).
Proof.
  assert (0 <> 0 \/ 2000 > 1023) as Hbad by (right; lia).
  split; [exact Hbad|].
  exact (proj1 (sampler_invalid_cycle (set_ab 512 main) 0 2000 Hbad)).
Defined.

(** ** C7: the release instant *)


(** Once a cycle has overrun, no later cycle sleeps or moves the release
    instant, the uptime never going back. *)
Lemma overrun_is_permanent fin_time fin_time' release_time :
  release_time <= fin_time -> fin_time <= fin_time' ->
  thread_A_wait fin_time' (snd (thread_A_wait fin_time release_time))
  = (None, release_time).
Proof.
  intros Hover Hmono. unfold thread_A_wait.
  destruct (Z.ltb_spec fin_time release_time); [lia|]. cbn [snd].
  destruct (Z.ltb_spec fin_time' release_time); [lia|reflexivity].
Qed.



(** ** C5 and C10: the pulse width *)

Lemma pulse_small bc :
  valid_sample bc -> pulse bc = (pwmPeriod_us * bc) / MAX_RAW.
Proof.
  unfold valid_sample, MAX_RAW, pulse, pwmPeriod_us. intros Hbc.
  unfold Mach.div_uint, Mach.mul_uint.
  rewrite (wrap_uint_small bc) by (unfold Mach.UINT_MOD; lia).
  rewrite (wrap_uint_small 1023) by (unfold Mach.UINT_MOD; lia).
  rewrite (wrap_uint_small (1000 * bc)) by (unfold Mach.UINT_MOD; lia).
  apply wrap_uint_small. unfold Mach.UINT_MOD. split.
  - apply Z.div_pos; lia.
  - apply Z.div_lt_upper_bound; lia.
Qed.

(** C5: for every filtered value in [0, MAX_RAW] the pulse width issued by
    thread C is [floor (period * value / MAX_RAW)]; it does not decrease
    when the value grows, and it is the whole period at [MAX_RAW]. *)
Theorem pulse_floor_monotone (v : Z) (Hv : valid_sample v) :
  pulse v = (pwmPeriod_us * v) / MAX_RAW
  /\ (forall v', valid_sample v' -> v <= v' -> pulse v <= pulse v')
  /\ pulse MAX_RAW = pwmPeriod_us
  /\ (forall pwm g g' period width,
        bc g = v ->
        thread_C_code pwm g = C_set g' period width ->
        period = pwmPeriod_us /\ width = (pwmPeriod_us * v) / MAX_RAW).
Proof.
  split; [apply pulse_small, Hv|]. split; [|split; [reflexivity|]].
  - intros v' Hv' Hle. rewrite !pulse_small by assumption.
    unfold pwmPeriod_us, MAX_RAW. apply Z.div_le_mono; lia.
  - intros pwm g g' period width <- HC.
    destruct (thread_C_code_mem pwm g g' period width (or_introl HC)) as (_ & _ & -> & ->).
    split; [reflexivity|]. apply pulse_small, Hv.
Qed.

Lemma pulse_floor_monotone_witness :
  valid_sample 500 /\ pulse 500 = (pwmPeriod_us * 500) / MAX_RAW.
Proof.
  assert (valid_sample 500) as Hv by (unfold valid_sample, MAX_RAW; lia).
  split; [exact Hv|]. exact (proj1 (pulse_floor_monotone 500 Hv)).
Defined.

(** C10: for every [bc] in [0, 1023] the product [pwmPeriod_us * bc],
    computed on [unsigned int], is at most 1,023,000, below 2^32, so it does
    not wrap and the pulse width is the exact floor of [1000 * bc / 1023]. *)
Theorem pulse_no_overflow (bc : Z) (Hbc : 0 <= bc <= 1023) :
  pwmPeriod_us = 1000
  /\ pwmPeriod_us * bc <= 1023000
  /\ 1023000 < 2 ^ 32
  /\ Mach.wrap_uint bc = bc
  /\ Mach.mul_uint pwmPeriod_us (Mach.wrap_uint bc) = pwmPeriod_us * bc
  /\ pulse bc = Qfloor (inject_Z (1000 * bc) / inject_Z 1023).
Proof.
  assert (Mach.wrap_uint bc = bc) as Hw
    by (apply wrap_uint_small; unfold Mach.UINT_MOD; lia).
  split; [reflexivity|]. split; [unfold pwmPeriod_us; lia|]. split; [lia|].
  split; [exact Hw|]. split.
  - rewrite Hw. unfold Mach.mul_uint, pwmPeriod_us.
    apply wrap_uint_small. unfold Mach.UINT_MOD. lia.
  - rewrite pulse_small by exact Hbc. unfold pwmPeriod_us, MAX_RAW.
    unfold Qdiv, Qinv, Qmult, Qfloor, inject_Z. cbn [Qnum Qden].
    f_equal. lia.
Qed.

Lemma pulse_no_overflow_witness :
  0 <= 1023 <= 1023 /\ pwmPeriod_us * 1023 <= 1023000 /\ pulse 1023 = 1000.
Proof.
  assert (0 <= 1023 <= 1023) as Hbc by lia.
  split; [exact Hbc|].
  destruct (pulse_no_overflow 1023 Hbc) as (_ & Hprod & _ & _ & _ & Hfloor).
  split; [exact Hprod|]. rewrite Hfloor. reflexivity.
Defined.

(** ** C8: the first sample *)

(** C8: from the all-zero window, a published sample of 500 gives the
    window with one non-zero slot, first-pass sum 500 over 1 slot, so
    [avg1 = 500]; the band is [450, 550]; the second pass gives 500, which is
    the value written to [bc]; and the pulse width is
    [floor (period * 500 / 1023)]. *)
Theorem scenario_first_sample :
  dados_init = [0; 0; 0; 0; 0; 0; 0; 0; 0; 0]
  /\ rotate 500 dados_init = [0; 500; 0; 0; 0; 0; 0; 0; 0; 0]
  /\ pass1_loop (rotate 500 dados_init) = (500, 1)
  /\ pass1 (rotate 500 dados_init) = 500
  /\ band_low 500 = Double.of_int 450
  /\ band_high 500 = Double.of_int 550
  /\ filter (fun v => negb (outlier 500 v)) (rotate 500 dados_init) = [500]
  /\ pass2_loop (rotate 500 dados_init) 500 = (500, 1)
  /\ two_pass (rotate 500 dados_init) = 500
  /\ (exists st,
        thread_B_code {| B_mem := thread_A_sample 0 500 main; dados := dados_init |}
        = Some st
        /\ bc (B_mem st) = 500
        /\ thread_C_code (fun _ _ => 0) (B_mem st)
           = C_set (set_sem_bc (k_sem_init 0 1) (B_mem st))
                   pwmPeriod_us ((pwmPeriod_us * 500) / MAX_RAW)).
Proof.
  repeat (split; [vm_compute; reflexivity|]).
  eexists. split; [reflexivity|]. split; vm_compute; reflexivity.
Qed.
(** * Further properties of the filter *)

Lemma in_band_Z avg1 v : in_band avg1 v <-> 9 * avg1 <= 10 * v <= 11 * avg1.
Proof.
  unfold in_band, below_band, above_band, Qlt. cbn. lia.
Qed.

Lemma mean_trunc_quot l : mean_trunc l = Z.quot (sumZ l) (Z.of_nat (length l)).
Proof. destruct l; [reflexivity|reflexivity]. Qed.

Lemma sumZ_perm l l' : l ≡ₚ l' -> sumZ l = sumZ l'.
Proof.
  induction 1 as [|x l l' _ IH|x y l|l l' l'' _ IH1 _ IH2]; cbn [sumZ foldr] in *.
  - reflexivity.
  - fold (sumZ l) (sumZ l'). lia.
  - lia.
  - lia.
Qed.

Lemma mean_trunc_perm l l' : l ≡ₚ l' -> mean_trunc l = mean_trunc l'.
Proof.
  intros Hp. rewrite !mean_trunc_quot, (sumZ_perm l l' Hp), (Permutation_length Hp).
  reflexivity.
Qed.

Lemma sumZ_between L H l :
  Forall (fun x => L <= x <= H) l ->
  L * Z.of_nat (length l) <= sumZ l <= H * Z.of_nat (length l).
Proof.
  induction 1 as [|x l Hx _ IH]; cbn [sumZ foldr length]; [lia|].
  fold (sumZ l). lia.
Qed.

(** The truncated mean of values between two non-negative integers lies
    between them. *)
Lemma mean_trunc_between L H l :
  0 <= L -> l <> [] -> Forall (fun x => L <= x <= H) l ->
  L <= mean_trunc l <= H.
Proof.
  intros HL Hne Hl. pose proof (sumZ_between L H l Hl) as Hs.
  rewrite mean_trunc_quot.
  assert (0 < Z.of_nat (length l)) as Hn by (destruct l; [contradiction|cbn [length]; lia]).
  rewrite Z.quot_div_nonneg by nia. split.
  - apply Z.div_le_lower_bound; lia.
  - apply Z.div_le_upper_bound; lia.
Qed.

Lemma filter_nonempty (P : Z -> Prop) `{!forall v, Decision (P v)} (l : list Z) v :
  v ∈ l -> P v -> filter P l <> [].
Proof.
  intros Hin HP Hnil.
  assert (v ∈ filter P l) as Hv by (apply list_elem_of_filter; auto).
  rewrite Hnil in Hv. apply elem_of_nil in Hv. exact Hv.
Qed.

Lemma Forall_filter_implies (P Q : Z -> Prop) `{!forall v, Decision (P v)} (l : list Z) :
  (forall x, x ∈ l -> P x -> Q x) -> Forall Q (filter P l).
Proof.
  intros Himp. apply Forall_forall. intros x Hx.
  apply list_elem_of_filter in Hx as [HP Hin]. auto.
Qed.

(** ** Before the tenth sample *)

(** X1: while fewer than ten samples were consumed the array holds 0 in
    slot 0, the samples from slot 1 on, newest first, and zeros behind them. *)
Theorem window_warm_up (samples : list Z)
    (Hk : (length samples < dados_size)%nat) :
  window_after samples
  = 0 :: reverse samples ++ replicate (9 - length samples) 0.
Proof.
  unfold dados_size in Hk.
  do 10 (destruct samples as [|? samples]; [reflexivity|]).
  cbn [length] in Hk. lia.
Qed.

Lemma window_warm_up_witness :
  (length [5; 6; 7] < dados_size)%nat
  /\ window_after [5; 6; 7] = [0; 7; 6; 5; 0; 0; 0; 0; 0; 0].
Proof.
  assert ((length [5; 6; 7] < dados_size)%nat) as Hk by (unfold dados_size; cbn; lia).
  split; [exact Hk|]. exact (window_warm_up [5; 6; 7] Hk).
Defined.

(** ** What the two passes compute, in one formula *)

Lemma two_pass_spec w :
  valid_window w ->
  two_pass w
  = mean_trunc (filter (in_band (mean_trunc (filter (fun v => v <> 0) w))) w).
Proof.
  intros Hw. unfold two_pass.
  rewrite pass2_mean by (try apply pass1_range; exact Hw).
  rewrite pass1_mean by exact Hw. reflexivity.
Qed.

Lemma nonzero_sample v : valid_sample v -> v <> 0 -> 1 <= v <= MAX_RAW.
Proof. unfold valid_sample. lia. Qed.

Lemma mean_nonzero_pos (w : list Z) :
  Forall valid_sample w -> filter (fun v => v <> 0) w <> [] ->
  1 <= mean_trunc (filter (fun v => v <> 0) w) <= MAX_RAW.
Proof.
  intros Hw Hne. apply mean_trunc_between; [lia|exact Hne|].
  apply Forall_filter_implies. intros x Hx Hnz. apply nonzero_sample; [|exact Hnz].
  rewrite Forall_forall in Hw. apply Hw, Hx.
Qed.

Lemma kept_nonzero (w : list Z) a :
  1 <= a ->
  filter (in_band a) w = filter (in_band a) (filter (fun v => v <> 0) w).
Proof.
  intros Ha. symmetry. apply list_filter_filter_l.
  intros x Hx. apply in_band_Z in Hx. lia.
Qed.

Lemma all_zero_of_filter (w : list Z) :
  filter (fun v => v <> 0) w = [] -> Forall (fun v => v = 0) w.
Proof.
  intros Hnil. apply Forall_forall. intros x Hx.
  destruct (decide (x = 0)) as [|Hnz]; [assumption|].
  exfalso. exact (filter_nonempty (fun v => v <> 0) w x Hx Hnz Hnil).
Qed.

Lemma two_pass_all_zero w :
  valid_window w -> Forall (fun v => v = 0) w -> two_pass w = 0.
Proof.
  intros Hw Hz. rewrite two_pass_spec by exact Hw.
  rewrite filter_nonzero_all_zero by exact Hz. cbn [mean_trunc].
  destruct (filter (in_band 0) w) as [|x k] eqn:Hk; [reflexivity|].
  assert (0 <= mean_trunc (x :: k) <= 0) as Hm; [|lia].
  apply mean_trunc_between; [lia|discriminate|].
  rewrite <- Hk. apply Forall_filter_implies. intros y _ Hy.
  apply in_band_zero in Hy. lia.
Qed.

(** ** Zero slots take no part *)

(** X2: two windows with the same non-zero slots, in any order and at any
    positions, give the same first-pass value and the same filtered value:
    a slot holding 0 takes no part, be it a start-up placeholder or a reading. *)
Theorem two_pass_nonzero_slots (w w' : list Z)
    (Hw : valid_window w) (Hw' : valid_window w')
    (Hp : filter (fun v => v <> 0) w ≡ₚ filter (fun v => v <> 0) w') :
  pass1 w = pass1 w' /\ two_pass w = two_pass w'.
Proof.
  assert (pass1 w = pass1 w') as H1
    by (rewrite !pass1_mean by assumption; apply mean_trunc_perm, Hp).
  split; [exact H1|].
  destruct (decide (filter (fun v => v <> 0) w = [])) as [Hnil|Hne].
  - assert (filter (fun v => v <> 0) w' = []) as Hnil'
      by (rewrite Hnil in Hp; symmetry; apply Permutation_nil_l, Hp).
    rewrite !two_pass_all_zero; auto using all_zero_of_filter.
  - rewrite !two_pass_spec by assumption.
    pose proof (mean_nonzero_pos w (proj2 Hw) Hne) as [Hpos _].
    pose proof (mean_trunc_perm _ _ Hp) as Hmean. revert Hmean Hpos.
    generalize (mean_trunc (filter (fun v => v <> 0) w)) as a.
    generalize (mean_trunc (filter (fun v => v <> 0) w')) as a'.
    intros a' a -> Hpos.
    rewrite (kept_nonzero w _ Hpos), (kept_nonzero w' _ Hpos).
    apply mean_trunc_perm, filter_Permutation, Hp.
Qed.

Lemma two_pass_nonzero_slots_witness :
  valid_window [0; 300; 0; 310; 290; 0; 0; 0; 0; 0]
  /\ valid_window [290; 0; 0; 0; 0; 0; 0; 310; 0; 300]
  /\ two_pass [0; 300; 0; 310; 290; 0; 0; 0; 0; 0]
     = two_pass [290; 0; 0; 0; 0; 0; 0; 310; 0; 300].
Proof.
  assert (valid_window [0; 300; 0; 310; 290; 0; 0; 0; 0; 0]) as Hw by solve_valid_window.
  assert (valid_window [290; 0; 0; 0; 0; 0; 0; 310; 0; 300]) as Hw' by solve_valid_window.
  assert (filter (fun v => v <> 0) [0; 300; 0; 310; 290; 0; 0; 0; 0; 0]
          ≡ₚ filter (fun v => v <> 0) [290; 0; 0; 0; 0; 0; 0; 310; 0; 300]) as Hp.
  { change ([300; 310; 290] ≡ₚ [290; 310; 300]).
    apply (Permutation_trans (l' := [310; 290; 300])).
    - apply (Permutation_app_comm [300] [310; 290]).
    - apply perm_swap. }
  split; [exact Hw|]. split; [exact Hw'|].
  exact (proj2 (two_pass_nonzero_slots _ _ Hw Hw' Hp)).
Defined.

(** ** The filtered value stays in the band *)

(** X3: when at least one slot lies in the band around the first-pass
    value, the filtered value lies in that band too: it differs from the
    first-pass value by at most one tenth of it. *)
Theorem two_pass_in_band (w : list Z) (Hw : valid_window w)
    (Hkept : filter (in_band (pass1 w)) w <> []) :
  in_band (pass1 w) (two_pass w)
  /\ 9 * pass1 w <= 10 * two_pass w <= 11 * pass1 w.
Proof.
  assert (9 * pass1 w <= 10 * two_pass w <= 11 * pass1 w) as Hb;
    [|split; [apply in_band_Z, Hb|exact Hb]].
  pose proof (pass1_range w Hw) as HA. unfold valid_sample in HA.
  unfold two_pass at 1 2. rewrite pass2_mean by (assumption || exact HA).
  set (a := pass1 w) in *.
  assert ((9 * a + 9) / 10 <= mean_trunc (filter (in_band a) w) <= (11 * a) / 10) as Hm.
  { apply mean_trunc_between; [apply Z.div_pos; lia|exact Hkept|].
    apply Forall_filter_implies. intros x _ Hx. apply in_band_Z in Hx.
    Z.div_mod_to_equations. lia. }
  revert Hm. generalize (mean_trunc (filter (in_band a) w)) as m. intros m Hm.
  Z.div_mod_to_equations. lia.
Qed.

Lemma two_pass_in_band_witness :
  valid_window warm_window
  /\ filter (in_band (pass1 warm_window)) warm_window <> []
  /\ 9 * pass1 warm_window <= 10 * two_pass warm_window <= 11 * pass1 warm_window.
Proof.
  assert (valid_window warm_window) as Hw by (unfold warm_window; solve_valid_window).
  assert (filter (in_band (pass1 warm_window)) warm_window <> []) as Hk
    by (vm_compute; discriminate).
  split; [exact Hw|]. split; [exact Hk|].
  exact (proj2 (two_pass_in_band warm_window Hw Hk)).
Defined.

(** ** A steady input *)

Lemma rotate_Forall (P : Z -> Prop) ab (w : list Z) :
  length w = dados_size -> Forall P w -> P ab -> Forall P (rotate ab w).
Proof.
  intros Hlen Hw Hab. rewrite rotate_window by exact Hlen.
  window_cases w Hlen. do 10 (apply Forall_cons in Hw as [? Hw]).
  cbn. repeat (apply Forall_cons; split; [assumption|]). constructor.
Qed.

Lemma foldl_rotate_Forall (P : Z -> Prop) (samples w : list Z) :
  length w = dados_size -> Forall P w -> Forall P samples ->
  Forall P (foldl (fun d s => rotate s d) w samples).
Proof.
  revert w. induction samples as [|x samples IH]; intros w Hlen Hw Hs; [exact Hw|].
  apply Forall_cons in Hs as [Hx Hs]. cbn [foldl].
  apply IH; [rewrite rotate_length; exact Hlen| |exact Hs].
  apply rotate_Forall; assumption.
Qed.

Lemma window_after_Forall (P : Z -> Prop) (samples : list Z) :
  P 0 -> Forall P samples -> Forall P (window_after samples).
Proof.
  intros H0 Hs. apply foldl_rotate_Forall; [reflexivity| |exact Hs].
  apply Forall_replicate, H0.
Qed.

Lemma window_after_valid (samples : list Z) :
  Forall valid_sample samples -> valid_window (window_after samples).
Proof.
  intros Hs. split; [apply window_after_length|].
  apply window_after_Forall; [unfold valid_sample, MAX_RAW; lia|exact Hs].
Qed.

Lemma rotate_newest ab (w : list Z) :
  length w = dados_size -> rotate ab w !! 1%nat = Some ab.
Proof. intros Hlen. rewrite rotate_window by exact Hlen. reflexivity. Qed.

Lemma window_after_snoc (samples : list Z) x :
  window_after (samples ++ [x]) = rotate x (window_after samples).
Proof. rewrite window_after_app. reflexivity. Qed.

Lemma two_pass_zero_or_const (w : list Z) v :
  valid_window w -> valid_sample v ->
  Forall (fun x => x = 0 \/ x = v) w -> v ∈ w ->
  two_pass w = v.
Proof.
  intros Hw Hv Hall Hin. rewrite Forall_forall in Hall.
  destruct (decide (v = 0)) as [->|Hnz].
  - apply two_pass_all_zero; [exact Hw|].
    apply Forall_forall. intros x Hx. destruct (Hall x Hx); assumption.
  - pose proof (nonzero_sample v Hv Hnz) as [Hpos _].
    rewrite two_pass_spec by exact Hw.
    assert (mean_trunc (filter (fun x => x <> 0) w) = v) as ->.
    { assert (v <= mean_trunc (filter (fun x => x <> 0) w) <= v) as Hm; [|lia].
      apply mean_trunc_between; [lia|exact (filter_nonempty _ w v Hin Hnz)|].
      apply Forall_filter_implies. intros x Hx Hx0. destruct (Hall x Hx); lia. }
    assert (v <= mean_trunc (filter (in_band v) w) <= v) as Hm; [|lia].
    apply mean_trunc_between; [lia| |].
    + apply (filter_nonempty _ w v Hin). apply in_band_Z. lia.
    + apply Forall_filter_implies. intros x Hx Hb. apply in_band_Z in Hb.
      destruct (Hall x Hx); lia.
Qed.

(** X4: once the same 10-bit sample [v] was consumed one or more times
    from start-up, with nothing else, the filtered value is [v]: the zeros
    the array starts with do not pull the value down. *)
Theorem steady_input (v : Z) (k : nat)
    (Hv : valid_sample v) (Hk : (1 <= k)%nat) :
  two_pass (window_after (replicate k v)) = v.
Proof.
  apply two_pass_zero_or_const; [|exact Hv| |].
  - apply window_after_valid, Forall_replicate, Hv.
  - apply window_after_Forall; [left; reflexivity|].
    apply Forall_replicate. right. reflexivity.
  - destruct k as [|k]; [lia|]. rewrite replicate_S_end, window_after_snoc.
    apply list_elem_of_lookup. exists 1%nat.
    apply rotate_newest, window_after_length.
Qed.

Lemma steady_input_witness :
  valid_sample 700 /\ (1 <= 3)%nat
  /\ two_pass (window_after (replicate 3 700)) = 700.
Proof.
  assert (valid_sample 700) as Hv by (unfold valid_sample, MAX_RAW; lia).
  assert ((1 <= 3)%nat) as Hk by lia.
  split; [exact Hv|]. split; [exact Hk|]. exact (steady_input 700 3 Hv Hk).
Defined.

(** ** One full-scale slot among nine equal ones *)

(** X5: a window of nine slots equal to [a], with [a] from 1 to 483, and
    one slot at full scale 1023, in any order, has no slot in the band around
    its first-pass value, so the filtered value is 0. *)
Theorem full_scale_outlier_gives_zero (a : Z) (w : list Z)
    (Ha : 1 <= a <= 483) (Hw : w ≡ₚ MAX_RAW :: replicate 9 a) :
  pass1 w = (MAX_RAW + 9 * a) / 10
  /\ filter (in_band (pass1 w)) w = []
  /\ two_pass w = 0.
Proof.
  unfold MAX_RAW in *.
  assert (valid_window (1023 :: replicate 9 a)) as Hvw.
  { split; [reflexivity|]. apply Forall_cons. split; [unfold valid_sample, MAX_RAW; lia|].
    apply Forall_replicate. unfold valid_sample, MAX_RAW. lia. }
  assert (valid_window w) as Hvalid.
  { destruct Hvw as [Hlen Hall]. split.
    - rewrite (Permutation_length Hw). exact Hlen.
    - rewrite Hw. exact Hall. }
  assert (pass1 w = (1023 + 9 * a) / 10) as H1.
  { rewrite pass1_mean by exact Hvalid.
    rewrite (mean_trunc_perm _ _ (filter_Permutation (fun v => v <> 0) _ _ Hw)).
    cbn [replicate]. rewrite !filter_cons_True by lia. rewrite filter_nil.
    rewrite mean_trunc_quot. cbn [sumZ foldr length].
    rewrite Z.quot_div_nonneg by lia. f_equal. lia. }
  assert (filter (in_band (pass1 w)) w = []) as H2.
  { rewrite H1. apply Permutation_nil_r.
    rewrite (filter_Permutation (in_band ((1023 + 9 * a) / 10)) _ _ Hw).
    cbn [replicate].
    rewrite !filter_cons_False; [rewrite filter_nil; reflexivity|..];
      rewrite in_band_Z; Z.div_mod_to_equations; lia. }
  split; [exact H1|]. split; [exact H2|].
  unfold two_pass. rewrite pass2_mean by (try apply pass1_range; exact Hvalid).
  rewrite H2. reflexivity.
Qed.

Lemma full_scale_outlier_gives_zero_witness :
  1 <= 100 <= 483
  /\ [100; 100; 100; 100; 100; MAX_RAW; 100; 100; 100; 100] ≡ₚ MAX_RAW :: replicate 9 100
  /\ two_pass [100; 100; 100; 100; 100; MAX_RAW; 100; 100; 100; 100] = 0.
Proof.
  assert (1 <= 100 <= 483) as Ha by lia.
  assert ([100; 100; 100; 100; 100; MAX_RAW; 100; 100; 100; 100]
          ≡ₚ MAX_RAW :: replicate 9 100) as Hw
    by (symmetry; apply (Permutation_middle [100; 100; 100; 100; 100] [100; 100; 100; 100])).
  split; [exact Ha|]. split; [exact Hw|].
  exact (proj2 (proj2 (full_scale_outlier_gives_zero 100 _ Ha Hw))).
Defined.

(** ** No slot outside the band *)

Lemma filter_all (P : Z -> Prop) `{!forall v, Decision (P v)} (l : list Z) :
  Forall P l -> filter P l = l.
Proof.
  induction 1 as [|x l Hx _ IH]; [reflexivity|].
  rewrite filter_cons_True by exact Hx. rewrite IH. reflexivity.
Qed.

(** X6: when every slot lies in the band around the first-pass value, the
    second pass changes nothing: the filtered value is the first-pass value,
    the truncated mean of the whole window. *)
Theorem no_outlier_keeps_first_pass (w : list Z) (Hw : valid_window w)
    (Hall : Forall (in_band (pass1 w)) w) :
  two_pass w = pass1 w /\ two_pass w = mean_trunc w.
Proof.
  assert (two_pass w = mean_trunc w) as H2.
  { unfold two_pass. rewrite pass2_mean by (try apply pass1_range; exact Hw).
    rewrite filter_all by exact Hall. reflexivity. }
  split; [|exact H2]. rewrite H2.
  destruct (decide (filter (fun v => v <> 0) w = [])) as [Hnil|Hne].
  - rewrite <- H2, two_pass_all_zero by auto using all_zero_of_filter.
    rewrite pass1_mean, Hnil by exact Hw. reflexivity.
  - rewrite pass1_mean by exact Hw. f_equal. symmetry. apply filter_all.
    pose proof (mean_nonzero_pos w (proj2 Hw) Hne) as [Hpos _].
    rewrite <- pass1_mean in Hpos by exact Hw.
    eapply Forall_impl; [exact Hall|]. intros x Hx. apply in_band_Z in Hx. lia.
Qed.

Lemma no_outlier_keeps_first_pass_witness :
  valid_window [100; 102; 98; 101; 99; 105; 97; 103; 100; 98]
  /\ Forall (in_band (pass1 [100; 102; 98; 101; 99; 105; 97; 103; 100; 98]))
       [100; 102; 98; 101; 99; 105; 97; 103; 100; 98]
  /\ two_pass [100; 102; 98; 101; 99; 105; 97; 103; 100; 98] = 100.
Proof.
  assert (valid_window [100; 102; 98; 101; 99; 105; 97; 103; 100; 98]) as Hw
    by solve_valid_window.
  assert (Forall (in_band (pass1 [100; 102; 98; 101; 99; 105; 97; 103; 100; 98]))
            [100; 102; 98; 101; 99; 105; 97; 103; 100; 98]) as Hall.
  { replace (pass1 [100; 102; 98; 101; 99; 105; 97; 103; 100; 98]) with 100
      by (vm_compute; reflexivity).
    repeat (apply Forall_cons; split; [apply in_band_Z; lia|]). constructor. }
  split; [exact Hw|]. split; [exact Hall|].
  rewrite (proj2 (no_outlier_keeps_first_pass _ Hw Hall)). reflexivity.
Defined.

(** * Further properties of the sampler *)

Lemma thread_A_code_fields bound hw fin_time st :
  A_mem (thread_A_code bound hw fin_time st)
  = thread_A_sample (fst (adc_sample bound hw (adc_sample_buffer st)))
      (snd (adc_sample bound hw (adc_sample_buffer st))) (A_mem st)
  /\ adc_sample_buffer (thread_A_code bound hw fin_time st)
     = snd (adc_sample bound hw (adc_sample_buffer st))
  /\ release_time (thread_A_code bound hw fin_time st)
     = snd (thread_A_wait fin_time (release_time st))
  /\ A_slept (thread_A_code bound hw fin_time st)
     = fst (thread_A_wait fin_time (release_time st)).
Proof.
  unfold thread_A_code.
  destruct (adc_sample bound hw (adc_sample_buffer st)) as [err buffer0].
  destruct (thread_A_wait fin_time (release_time st)) as [slept rt].
  cbn. auto.
Qed.

Lemma thread_A_run_snoc bound cycles c st :
  thread_A_run bound (cycles ++ [c]) st
  = thread_A_code bound (fst c) (snd c) (thread_A_run bound cycles st).
Proof. unfold thread_A_run. rewrite foldl_app. reflexivity. Qed.

Lemma k_sem_give_binary s :
  binary_sem s -> binary_sem (k_sem_give s) /\ count (k_sem_give s) = 1.
Proof.
  unfold binary_sem, k_sem_give. intros [Hl Hc].
  destruct (Z.eqb_spec (count s) (limit s)); cbn [count limit]; lia.
Qed.

Lemma k_sem_take_binary s s' :
  binary_sem s -> k_sem_take s = Some s' ->
  count s = 1 /\ count s' = 0 /\ limit s' = 1.
Proof.
  unfold binary_sem, k_sem_take. intros [Hl Hc].
  destruct (Z.ltb_spec 0 (count s)); [|discriminate].
  intros [= <-]. cbn [count limit]. lia.
Qed.

Lemma k_sem_take_empty s : count s = 0 -> k_sem_take s = None.
Proof. unfold k_sem_take. intros ->. reflexivity. Qed.

Lemma thread_A_run_binary bound cycles st :
  binary_sem (sem_ab (A_mem st)) ->
  binary_sem (sem_ab (A_mem (thread_A_run bound cycles st))).
Proof.
  intros Hs. induction cycles as [|c cycles IH] using rev_ind; [exact Hs|].
  rewrite thread_A_run_snoc.
  destruct (thread_A_code_fields bound (fst c) (snd c) (thread_A_run bound cycles st))
    as (-> & _). rewrite thread_A_sample_sem. apply k_sem_give_binary, IH.
Qed.

(** ** Without a bound converter *)

(** X7: while the converter is not bound, [adc_sample] returns -1 without
    touching the buffer, so over any number of cycles [ab] and the buffer keep
    their values; the semaphore is given all the same and holds one permit
    after the first cycle. *)
Theorem unbound_adc_never_publishes (cycles : list (adc_result * Z))
    (st : thread_A_state) (Hsem : binary_sem (sem_ab (A_mem st))) :
  ab (A_mem (thread_A_run false cycles st)) = ab (A_mem st)
  /\ adc_sample_buffer (thread_A_run false cycles st) = adc_sample_buffer st
  /\ (cycles <> [] -> count (sem_ab (A_mem (thread_A_run false cycles st))) = 1).
Proof.
  induction cycles as [|c cycles IH] using rev_ind.
  - split; [reflexivity|]. split; [reflexivity|]. intros Hne. contradiction.
  - destruct IH as (IHab & IHbuf & _). rewrite thread_A_run_snoc.
    destruct (thread_A_code_fields false (fst c) (snd c) (thread_A_run false cycles st))
      as (Hm & Hb & _ & _).
    cbn [adc_sample negb fst snd] in Hm, Hb. rewrite Hm, Hb.
    split; [rewrite thread_A_sample_ab; cbn [Z.eqb andb]; exact IHab|].
    split; [exact IHbuf|].
    intros _. rewrite thread_A_sample_sem.
    apply k_sem_give_binary, thread_A_run_binary, Hsem.
Qed.

Lemma unbound_adc_never_publishes_witness :
  binary_sem (sem_ab (A_mem (thread_A_init 0 main)))
  /\ ab (A_mem (thread_A_run false
                  [({| adc_ret := 0; adc_buffer0 := 700 |}, 400);
                   ({| adc_ret := 0; adc_buffer0 := 800 |}, 1400)]
                  (thread_A_init 0 main))) = 0.
Proof.
  assert (binary_sem (sem_ab (A_mem (thread_A_init 0 main)))) as Hsem
    by (unfold binary_sem; cbn; lia).
  split; [exact Hsem|].
  exact (proj1 (unbound_adc_never_publishes _ (thread_A_init 0 main) Hsem)).
Defined.

(** ** Release instants over several cycles *)

Lemma thread_A_wait_late fin_time rt :
  rt <= fin_time -> thread_A_wait fin_time rt = (None, rt).
Proof.
  intros Hlate. unfold thread_A_wait.
  destruct (Z.ltb_spec fin_time rt); [lia|reflexivity].
Qed.

Lemma thread_A_wait_early fin_time rt :
  0 <= fin_time < rt -> rt + SAMP_PERIOD_MS < 2 ^ 63 ->
  thread_A_wait fin_time rt
  = (Some (Mach.wrap_int (rt - fin_time)), rt + SAMP_PERIOD_MS).
Proof.
  unfold SAMP_PERIOD_MS. intros Hearly Hrep. unfold thread_A_wait.
  destruct (Z.ltb_spec fin_time rt); [|lia].
  unfold Mach.add_int64, Mach.sub_int64, SAMP_PERIOD_MS.
  rewrite !wrap_int64_small by lia. reflexivity.
Qed.

(** X8: over cycles that all end at or after the release instant, as
    every cycle after an overrun does since the uptime does not go back,
    [release_time] never moves and the thread never sleeps. *)
Theorem overrun_stops_the_clock (adc_dev_bound : bool)
    (cycles : list (adc_result * Z)) (st : thread_A_state)
    (Hlate : Forall (fun c => release_time st <= snd c) cycles) :
  release_time (thread_A_run adc_dev_bound cycles st) = release_time st
  /\ (cycles <> [] -> A_slept (thread_A_run adc_dev_bound cycles st) = None).
Proof.
  induction cycles as [|c cycles IH] using rev_ind.
  - split; [reflexivity|]. intros Hne. contradiction.
  - apply Forall_app in Hlate as [Hl Hc]. apply Forall_cons in Hc as [Hc _].
    destruct (IH Hl) as [IHr _]. rewrite thread_A_run_snoc.
    destruct (thread_A_code_fields adc_dev_bound (fst c) (snd c)
                (thread_A_run adc_dev_bound cycles st)) as (_ & _ & -> & ->).
    rewrite IHr, thread_A_wait_late by exact Hc. split; [reflexivity|]. reflexivity.
Qed.

Lemma overrun_stops_the_clock_witness :
  Forall (fun c => release_time (thread_A_init 0 main) <= snd c)
    [({| adc_ret := 0; adc_buffer0 := 700 |}, 1000);
     ({| adc_ret := 0; adc_buffer0 := 800 |}, 1001)]
  /\ release_time
       (thread_A_run true
          [({| adc_ret := 0; adc_buffer0 := 700 |}, 1000);
           ({| adc_ret := 0; adc_buffer0 := 800 |}, 1001)]
          (thread_A_init 0 main)) = 1000.
Proof.
  assert (Forall (fun c => release_time (thread_A_init 0 main) <= snd c)
            [({| adc_ret := 0; adc_buffer0 := 700 |}, 1000);
             ({| adc_ret := 0; adc_buffer0 := 800 |}, 1001)]) as Hlate.
  { repeat (apply Forall_cons; split; [vm_compute; discriminate|]). constructor. }
  split; [exact Hlate|].
  exact (proj1 (overrun_stops_the_clock true _ (thread_A_init 0 main) Hlate)).
Defined.

(** X9: over cycles that each end before their release instant,
    [release_time] advances by one period per cycle without drift: after [n]
    cycles it is the initial instant plus [n] periods, and the last sleep
    lasts until the release instant of its cycle. *)
Theorem on_time_cycles_keep_the_period (adc_dev_bound : bool)
    (cycles : list (adc_result * Z)) (st : thread_A_state)
    (Hearly : forall (i : nat) c, cycles !! i = Some c ->
                0 <= snd c < release_time st + Z.of_nat i * SAMP_PERIOD_MS)
    (Hrep : release_time st + Z.of_nat (length cycles) * SAMP_PERIOD_MS < 2 ^ 63) :
  release_time (thread_A_run adc_dev_bound cycles st)
  = release_time st + Z.of_nat (length cycles) * SAMP_PERIOD_MS
  /\ (forall c, last cycles = Some c ->
        A_slept (thread_A_run adc_dev_bound cycles st)
        = Some (Mach.wrap_int
                  (release_time st
                   + (Z.of_nat (length cycles) - 1) * SAMP_PERIOD_MS - snd c))).
Proof.
  induction cycles as [|c cycles IH] using rev_ind.
  - split; [cbn; lia|]. intros c Hc. discriminate.
  - rewrite length_app in *. cbn [length] in *.
    assert (release_time (thread_A_run adc_dev_bound cycles st)
            = release_time st + Z.of_nat (length cycles) * SAMP_PERIOD_MS) as IHr.
    { apply IH.
      - intros i d Hi. apply Hearly. apply lookup_app_l_Some, Hi.
      - unfold SAMP_PERIOD_MS in *. lia. }
    assert (0 <= snd c < release_time st + Z.of_nat (length cycles) * SAMP_PERIOD_MS)
      as Hc by (apply Hearly, list_lookup_middle; reflexivity).
    rewrite thread_A_run_snoc.
    destruct (thread_A_code_fields adc_dev_bound (fst c) (snd c)
                (thread_A_run adc_dev_bound cycles st)) as (_ & _ & -> & ->).
    rewrite IHr, thread_A_wait_early by (unfold SAMP_PERIOD_MS in *; lia).
    cbn [fst snd]. split; [lia|].
    intros d Hd. rewrite last_snoc in Hd. injection Hd as <-.
    do 2 f_equal. lia.
Qed.

Lemma on_time_cycles_keep_the_period_witness :
  (forall (i : nat) c,
      [({| adc_ret := 0; adc_buffer0 := 700 |}, 400);
       ({| adc_ret := 0; adc_buffer0 := 800 |}, 1400)] !! i = Some c ->
      0 <= snd c < release_time (thread_A_init 0 main) + Z.of_nat i * SAMP_PERIOD_MS)
  /\ release_time (thread_A_init 0 main)
     + Z.of_nat (length [({| adc_ret := 0; adc_buffer0 := 700 |}, 400);
                         ({| adc_ret := 0; adc_buffer0 := 800 |}, 1400)])
       * SAMP_PERIOD_MS < 2 ^ 63
  /\ release_time
       (thread_A_run true
          [({| adc_ret := 0; adc_buffer0 := 700 |}, 400);
           ({| adc_ret := 0; adc_buffer0 := 800 |}, 1400)]
          (thread_A_init 0 main)) = 3000.
Proof.
  assert (forall (i : nat) c,
      [({| adc_ret := 0; adc_buffer0 := 700 |}, 400);
       ({| adc_ret := 0; adc_buffer0 := 800 |}, 1400)] !! i = Some c ->
      0 <= snd c < release_time (thread_A_init 0 main) + Z.of_nat i * SAMP_PERIOD_MS)
    as Hearly.
  { intros i c Hc.
    destruct i as [|[|i]]; cbn in Hc;
      [injection Hc as <-|injection Hc as <-|discriminate Hc];
      vm_compute; (split; [discriminate|reflexivity]). }
  assert (release_time (thread_A_init 0 main)
          + Z.of_nat (length [({| adc_ret := 0; adc_buffer0 := 700 |}, 400);
                              ({| adc_ret := 0; adc_buffer0 := 800 |}, 1400)])
            * SAMP_PERIOD_MS < 2 ^ 63) as Hrep by (vm_compute; reflexivity).
  split; [exact Hearly|]. split; [exact Hrep|].
  exact (proj1 (on_time_cycles_keep_the_period true _ (thread_A_init 0 main) Hearly Hrep)).
Defined.

(** * Further properties of the hand-over between the threads *)

Lemma thread_A_sample_sem_bc err buf g : sem_bc (thread_A_sample err buf g) = sem_bc g.
Proof.
  unfold thread_A_sample.
  destruct (negb (err =? 0)); [reflexivity|]. destruct (buf >? 1023); reflexivity.
Qed.

Lemma thread_B_code_sems st st' :
  thread_B_code st = Some st' ->
  exists s, k_sem_take (sem_ab (B_mem st)) = Some s
            /\ sem_ab (B_mem st') = s
            /\ sem_bc (B_mem st') = k_sem_give (sem_bc (B_mem st)).
Proof.
  unfold thread_B_code. destruct (k_sem_take (sem_ab (B_mem st))) as [s|]; [|discriminate].
  intros [= <-]. exists s. cbn. auto.
Qed.

Lemma thread_B_code_released st :
  binary_sem (sem_ab (B_mem st)) -> count (sem_ab (B_mem st)) = 1 ->
  exists st', thread_B_code st = Some st'.
Proof.
  intros _ Hc. unfold thread_B_code, k_sem_take. rewrite Hc. cbn. eauto.
Qed.

Lemma thread_B_code_blocked st :
  count (sem_ab (B_mem st)) = 0 -> thread_B_code st = None.
Proof. intros Hc. unfold thread_B_code. rewrite k_sem_take_empty by exact Hc. reflexivity. Qed.

Lemma thread_C_code_sems pwm g g' period width :
  thread_C_code pwm g = C_set g' period width
  \/ thread_C_code pwm g = C_returned g' period width ->
  exists s, k_sem_take (sem_bc g) = Some s /\ sem_bc g' = s /\ sem_ab g' = sem_ab g.
Proof.
  unfold thread_C_code. destruct (k_sem_take (sem_bc g)) as [s|]; [|intros [?|?]; discriminate].
  destruct (negb (_ =? 0)); intros [H|H]; inversion H; subst; exists s; cbn; auto.
Qed.


Lemma sem_inv_step s s' : sem_inv (mem s) -> step s s' -> sem_inv (mem s').
Proof.
  intros [Hab Hbc] Hstep. unfold sem_inv.
  destruct Hstep as [err buf s Hbuf|s st HB|pwm s g p wd _ HC|pwm s g p wd _ HC];
    cbn [mem].
  - rewrite thread_A_sample_sem, thread_A_sample_sem_bc.
    split; [apply k_sem_give_binary, Hab|exact Hbc].
  - apply thread_B_code_sems in HB as (t & Ht & -> & ->). cbn [B_mem] in Ht.
    destruct (k_sem_take_binary _ _ Hab Ht) as (_ & H0 & Hl).
    split; [unfold binary_sem; lia|apply k_sem_give_binary, Hbc].
  - destruct (thread_C_code_sems pwm (mem s) g p wd (or_introl HC)) as (t & Ht & -> & ->).
    destruct (k_sem_take_binary _ _ Hbc Ht) as (_ & H0 & Hl).
    split; [exact Hab|unfold binary_sem; lia].
  - destruct (thread_C_code_sems pwm (mem s) g p wd (or_intror HC)) as (t & Ht & -> & ->).
    destruct (k_sem_take_binary _ _ Hbc Ht) as (_ & H0 & Hl).
    split; [exact Hab|unfold binary_sem; lia].
Qed.

Lemma sem_inv_reachable s : reachable s -> sem_inv (mem s).
Proof.
  unfold reachable. revert s. apply (rtc_ind_r (fun s => sem_inv (mem s)) boot).
  - unfold sem_inv, binary_sem. cbn. lia.
  - intros y z _ Hstep IH. exact (sem_inv_step y z IH Hstep).
Qed.

(** ** At most one permit *)

(** X10: in every reachable state both semaphores have limit 1 and hold
    zero or one permit. *)
Theorem semaphores_stay_binary (s : system) (Hs : reachable s) :
  limit (sem_ab (mem s)) = 1 /\ limit (sem_bc (mem s)) = 1
  /\ (count (sem_ab (mem s)) = 0 \/ count (sem_ab (mem s)) = 1)
  /\ (count (sem_bc (mem s)) = 0 \/ count (sem_bc (mem s)) = 1).
Proof.
  destruct (sem_inv_reachable s Hs) as [[Hl1 Hc1] [Hl2 Hc2]].
  split; [exact Hl1|]. split; [exact Hl2|]. split; lia.
Qed.

Lemma reachable_after_sample : reachable
  {| mem := thread_A_sample 0 500 main; window := dados_init; C_running := true |}.
Proof.
  unfold reachable. apply (rtc_r _ boot); [apply rtc_refl|].
  apply (step_A 0 500 boot). lia.
Qed.

Lemma semaphores_stay_binary_witness :
  reachable {| mem := thread_A_sample 0 500 main; window := dados_init; C_running := true |}
  /\ limit (sem_ab (thread_A_sample 0 500 main)) = 1.
Proof.
  split; [exact reachable_after_sample|].
  exact (proj1 (semaphores_stay_binary _ reachable_after_sample)).
Defined.

(** ** From the filter to the actuator *)



(** ** One slot, the latest value *)

(** X12: two cycles of thread A with no iteration of thread B in
    between, the second with a valid reading [v2], leave one permit: thread B
    runs once, puts [v2] in its array, and blocks; the first value never
    reaches the array. *)
Theorem mailbox_keeps_latest (g : shmem) (w : list Z) (err1 v1 v2 : Z)
    (Hsem : binary_sem (sem_ab g)) (Hv2 : v2 <= 1023) :
  exists st,
    thread_B_code {| B_mem := thread_A_sample 0 v2 (thread_A_sample err1 v1 g);
                     dados := w |} = Some st
    /\ dados st = rotate v2 w
    /\ thread_B_code st = None.
Proof.
  set (g2 := thread_A_sample 0 v2 (thread_A_sample err1 v1 g)).
  assert (binary_sem (sem_ab g2) /\ count (sem_ab g2) = 1) as [Hb Hc].
  { subst g2. rewrite !thread_A_sample_sem.
    apply k_sem_give_binary, k_sem_give_binary, Hsem. }
  assert (ab g2 = v2) as Hab.
  { subst g2. rewrite thread_A_sample_ab. cbn [Z.eqb andb].
    destruct (Z.leb_spec v2 1023); [reflexivity|lia]. }
  destruct (thread_B_code_released {| B_mem := g2; dados := w |} Hb Hc) as [st HB].
  exists st. split; [exact HB|].
  destruct (thread_B_code_Some _ _ HB) as (_ & Hd & _ & _). cbn [B_mem dados] in Hd.
  destruct (thread_B_code_sems _ _ HB) as (t & Ht & Hsab & _). cbn [B_mem] in Ht.
  destruct (k_sem_take_binary _ _ Hb Ht) as (_ & H0 & _).
  split; [rewrite Hd, Hab; reflexivity|].
  apply thread_B_code_blocked. rewrite Hsab. exact H0.
Qed.

Lemma mailbox_keeps_latest_witness :
  binary_sem (sem_ab main) /\ 800 <= 1023
  /\ (exists st,
        thread_B_code {| B_mem := thread_A_sample 0 800 (thread_A_sample 0 700 main);
                         dados := dados_init |} = Some st
        /\ dados st = rotate 800 dados_init
        /\ thread_B_code st = None).
Proof.
  assert (binary_sem (sem_ab main)) as Hsem by (unfold binary_sem; cbn; lia).
  assert (800 <= 1023) as Hv2 by lia.
  split; [exact Hsem|]. split; [exact Hv2|].
  exact (mailbox_keeps_latest main dados_init 0 700 800 Hsem Hv2).
Defined.

(** ** A cycle without a reading, seen from the filter *)

(** X13: after thread B consumed [ab], a cycle of thread A without a
    valid reading releases thread B again, which consumes the same [ab] a
    second time: the value then sits in slots 1 and 2 of the array. *)
Theorem failed_read_repeats_sample (g : shmem) (w : list Z) (err buf : Z)
    (Hbad : err <> 0 \/ buf > 1023)
    (Hsem : binary_sem (sem_ab g))
    (Hlen : length w = dados_size) :
  exists st,
    thread_B_code {| B_mem := thread_A_sample err buf g; dados := rotate (ab g) w |}
    = Some st
    /\ dados st = rotate (ab g) (rotate (ab g) w)
    /\ dados st !! 1%nat = Some (ab g)
    /\ dados st !! 2%nat = Some (ab g).
Proof.
  set (g1 := thread_A_sample err buf g).
  assert (binary_sem (sem_ab g1) /\ count (sem_ab g1) = 1) as [Hb Hc]
    by (subst g1; rewrite thread_A_sample_sem; apply k_sem_give_binary, Hsem).
  assert (ab g1 = ab g) as Hab.
  { subst g1. rewrite thread_A_sample_ab.
    destruct (Z.eqb_spec err 0); cbn [andb]; [|reflexivity].
    destruct (Z.leb_spec buf 1023); [lia|reflexivity]. }
  destruct (thread_B_code_released {| B_mem := g1; dados := rotate (ab g) w |} Hb Hc)
    as [st HB].
  exists st. split; [exact HB|].
  destruct (thread_B_code_Some _ _ HB) as (_ & Hd & _ & _). cbn [B_mem dados] in Hd.
  rewrite Hab in Hd. split; [exact Hd|]. rewrite Hd.
  generalize (ab g) as x. intros x. window_cases w Hlen. split; reflexivity.
Qed.

Lemma failed_read_repeats_sample_witness :
  (0 <> 0 \/ 2000 > 1023) /\ binary_sem (sem_ab (set_ab 512 main))
  /\ length dados_init = dados_size
  /\ (exists st,
        thread_B_code {| B_mem := thread_A_sample 0 2000 (set_ab 512 main);
                         dados := rotate (ab (set_ab 512 main)) dados_init |} = Some st
        /\ dados st = rotate (ab (set_ab 512 main)) (rotate (ab (set_ab 512 main)) dados_init)
        /\ dados st !! 1%nat = Some (ab (set_ab 512 main))
        /\ dados st !! 2%nat = Some (ab (set_ab 512 main))).
Proof.
  assert (0 <> 0 \/ 2000 > 1023) as Hbad by (right; lia).
  assert (binary_sem (sem_ab (set_ab 512 main))) as Hsem by (unfold binary_sem; cbn; lia).
  assert (length dados_init = dados_size) as Hlen by reflexivity.
  split; [exact Hbad|]. split; [exact Hsem|]. split; [exact Hlen|].
  exact (failed_read_repeats_sample (set_ab 512 main) dados_init 0 2000 Hbad Hsem Hlen).
Defined.

(** * Further properties of the actuator *)

(** X14: on 10-bit values the pulse width never exceeds the value, is 0
    exactly for the values 0 and 1, and grows by 0 or 1 when the value grows
    by 1. *)
Theorem pulse_resolution (v : Z) (Hv : valid_sample v) :
  pulse v <= v
  /\ (pulse v = 0 <-> v <= 1)
  /\ (v < MAX_RAW -> pulse v <= pulse (v + 1) <= pulse v + 1).
Proof.
  unfold valid_sample, MAX_RAW in *.
  assert (pulse v = (1000 * v) / 1023) as Hp by (apply pulse_small; exact Hv).
  split; [|split].
  - rewrite Hp. Z.div_mod_to_equations. lia.
  - rewrite Hp. Z.div_mod_to_equations. lia.
  - intros Hlt.
    assert (pulse (v + 1) = (1000 * (v + 1)) / 1023) as Hq
      by (apply pulse_small; unfold valid_sample, MAX_RAW; lia).
    rewrite Hp, Hq. Z.div_mod_to_equations. lia.
Qed.

Lemma pulse_resolution_witness :
  valid_sample 1 /\ pulse 1 <= 1 /\ (pulse 1 = 0 <-> 1 <= 1).
Proof.
  assert (valid_sample 1) as Hv by (unfold valid_sample, MAX_RAW; lia).
  split; [exact Hv|].
  exact (conj (proj1 (pulse_resolution 1 Hv)) (proj1 (proj2 (pulse_resolution 1 Hv)))).
Defined.

(** X15: the duty printed at line 347 divides by 10023, not 1023: on
    10-bit values it is [floor (1000 * bc / 10023)], at most 102, never above
    the pulse width issued at line 341 and strictly below it from [bc = 2] on. *)
Theorem printed_duty_is_not_the_pulse (v : Z) (Hv : valid_sample v) :
  thread_C_printed v = (pwmPeriod_us * v) / 10023
  /\ 0 <= thread_C_printed v <= 102
  /\ thread_C_printed v <= pulse v
  /\ (2 <= v -> thread_C_printed v < pulse v).
Proof.
  unfold valid_sample, MAX_RAW in *.
  assert (pulse v = (1000 * v) / 1023) as Hp by (apply pulse_small; exact Hv).
  assert (thread_C_printed v = (1000 * v) / 10023) as Hq.
  { unfold thread_C_printed, Mach.div_uint, Mach.mul_uint, pwmPeriod_us.
    rewrite (wrap_uint_small v) by (unfold Mach.UINT_MOD; lia).
    rewrite (wrap_uint_small 10023) by (unfold Mach.UINT_MOD; lia).
    rewrite (wrap_uint_small (1000 * v)) by (unfold Mach.UINT_MOD; lia).
    reflexivity. }
  split; [exact Hq|]. rewrite Hp, Hq. clear Hp Hq.
  split; [|split].
  - Z.div_mod_to_equations. lia.
  - Z.div_mod_to_equations. lia.
  - intros Hge. Z.div_mod_to_equations. lia.
Qed.

Lemma printed_duty_is_not_the_pulse_witness :
  valid_sample 1023 /\ thread_C_printed 1023 <= 102 /\ pulse 1023 = 1000.
Proof.
  assert (valid_sample 1023) as Hv by (unfold valid_sample, MAX_RAW; lia).
  split; [exact Hv|].
  split; [exact (proj2 (proj1 (proj2 (printed_duty_is_not_the_pulse 1023 Hv))))|reflexivity].
Defined.

(** * The clock program *)

(** ** The three counters *)

(** X16: every iteration of the clock thread advances all three
    counters: after [n] iterations from the initial zeros, [seg] is
    [2 * (n mod 31)], [min] is [n mod 60] and [horas] is [n mod 25]. *)
Theorem clock_counters_closed_form (n : nat) :
  Nat.iter n Clock.thread_relogio_code Clock.init
  = {| Clock.seg := 2 * (Z.of_nat n mod 31);
       Clock.min := Z.of_nat n mod 60;
       Clock.horas := Z.of_nat n mod 25 |}.
Proof.
  induction n as [|n IH]; [reflexivity|].
  rewrite Nat.iter_succ, IH. unfold Clock.thread_relogio_code.
  cbn [Clock.seg Clock.min Clock.horas]. rewrite Nat2Z.inj_succ.
  rewrite !Z.gtb_ltb.
  rewrite (add_int_small (2 * (Z.of_nat n mod 31)) 1)
    by (unfold Mach.in_int, Mach.INT_MIN, Mach.INT_MAX; Z.div_mod_to_equations; lia).
  rewrite (add_int_small (2 * (Z.of_nat n mod 31) + 1) 1)
    by (unfold Mach.in_int, Mach.INT_MIN, Mach.INT_MAX; Z.div_mod_to_equations; lia).
  rewrite (add_int_small (Z.of_nat n mod 60) 1)
    by (unfold Mach.in_int, Mach.INT_MIN, Mach.INT_MAX; Z.div_mod_to_equations; lia).
  rewrite (add_int_small (Z.of_nat n mod 25) 1)
    by (unfold Mach.in_int, Mach.INT_MIN, Mach.INT_MAX; Z.div_mod_to_equations; lia).
  f_equal.
  - destruct (Z.ltb_spec (2 * (Z.of_nat n mod 31) + 1) 60);
      Z.div_mod_to_equations; lia.
  - destruct (Z.ltb_spec 59 (Z.of_nat n mod 60 + 1));
      Z.div_mod_to_equations; lia.
  - destruct (Z.ltb_spec 24 (Z.of_nat n mod 25 + 1));
      Z.div_mod_to_equations; lia.
Qed.

(** ** The thread behind [sem_manual] *)

Lemma thread_manual_code_blocked pwm sem m :
  count sem = 0 -> Clock.thread_manual_code pwm sem m = Clock.M_blocked.
Proof.
  intros Hc. unfold Clock.thread_manual_code.
  rewrite k_sem_take_empty by exact Hc. reflexivity.
Qed.

Lemma manual_never_released_step s s' :
  count (Clock.sem_manual s) = 0 /\ Clock.issued s = []
  /\ Clock.dcIndex (Clock.man s) = 0 /\ Clock.manual_running s = true ->
  Clock.step s s' ->
  count (Clock.sem_manual s') = 0 /\ Clock.issued s' = []
  /\ Clock.dcIndex (Clock.man s') = 0 /\ Clock.manual_running s' = true.
Proof.
  intros (Hc & Hi & Hd & Hr) Hstep.
  destruct Hstep as [s|s|pwm s sem m _ HM|pwm s sem m p wd _ HM|pwm s sem m p wd _ HM];
    cbn; auto;
    rewrite thread_manual_code_blocked in HM by exact Hc; discriminate HM.
Qed.

(** X17: [sem_manual] is never given, so in every reachable state of
    the clock program thread [manual] is blocked on it: the duty-cycle index
    is still 0 and no pulse width was ever handed to the PWM driver, however
    often the button was pressed. *)
Theorem manual_thread_never_released (s : Clock.system) (Hs : Clock.reachable s) :
  count (Clock.sem_manual s) = 0
  /\ Clock.issued s = []
  /\ Clock.dcIndex (Clock.man s) = 0
  /\ Clock.manual_running s = true
  /\ forall pwm, Clock.thread_manual_code pwm (Clock.sem_manual s) (Clock.man s)
                 = Clock.M_blocked.
Proof.
  assert (count (Clock.sem_manual s) = 0 /\ Clock.issued s = []
          /\ Clock.dcIndex (Clock.man s) = 0 /\ Clock.manual_running s = true) as Hinv.
  { revert s Hs. unfold Clock.reachable.
    apply (rtc_ind_r
             (fun s => count (Clock.sem_manual s) = 0 /\ Clock.issued s = []
                       /\ Clock.dcIndex (Clock.man s) = 0
                       /\ Clock.manual_running s = true) Clock.boot).
    - cbn. auto.
    - intros y z _ Hstep IH. exact (manual_never_released_step y z IH Hstep). }
  destruct Hinv as (Hc & Hi & Hd & Hr).
  split; [exact Hc|]. split; [exact Hi|]. split; [exact Hd|]. split; [exact Hr|].
  intros pwm. apply thread_manual_code_blocked, Hc.
Qed.

Lemma clock_reachable_after_press :
  Clock.reachable
    {| Clock.clk := Clock.thread_relogio_code Clock.init;
       Clock.sem_manual := k_sem_init 0 1;
       Clock.man := Clock.but1press_cbfunction Clock.manual_init;
       Clock.manual_running := true; Clock.issued := [] |}.
Proof.
  unfold Clock.reachable.
  eapply rtc_r; [eapply rtc_r; [apply rtc_refl|apply Clock.step_relogio]|].
  apply (Clock.step_button
           {| Clock.clk := Clock.thread_relogio_code Clock.init;
              Clock.sem_manual := k_sem_init 0 1; Clock.man := Clock.manual_init;
              Clock.manual_running := true; Clock.issued := [] |}).
Qed.

Lemma manual_thread_never_released_witness :
  Clock.reachable
    {| Clock.clk := Clock.thread_relogio_code Clock.init;
       Clock.sem_manual := k_sem_init 0 1;
       Clock.man := Clock.but1press_cbfunction Clock.manual_init;
       Clock.manual_running := true; Clock.issued := [] |}
  /\ Clock.thread_manual_code (fun _ _ => 0) (k_sem_init 0 1)
       (Clock.but1press_cbfunction Clock.manual_init) = Clock.M_blocked.
Proof.
  split; [exact clock_reachable_after_press|].
  exact (proj2 (proj2 (proj2 (proj2
           (manual_thread_never_released _ clock_reachable_after_press))))
           (fun _ _ => 0)).
Defined.

(** ** The duty-cycle table *)

(** X18: an iteration of thread [manual] that finds a permit and a
    pending button press consumes the permit, clears the flag, moves the index
    to the next of the four table entries, wrapping from 3 to 0, and hands the
    driver the width [10 * dcValue[dcIndex]], a whole number of tens between 0
    and the period. *)
Theorem manual_duty_cycle_steps (pwm : Z -> Z -> Z) (sem : k_sem) (m : Clock.manual)
    (Hsem : 0 < count sem)
    (Hflag : Clock.dcToggleFlag m <> 0)
    (Hidx : 0 <= Clock.dcIndex m < 4) :
  exists sem' m' width,
    (Clock.thread_manual_code pwm sem m = Clock.M_set sem' m' Clock.pwmPeriod_us width
     \/ Clock.thread_manual_code pwm sem m
        = Clock.M_returned sem' m' Clock.pwmPeriod_us width)
    /\ count sem' = count sem - 1
    /\ Clock.dcIndex m' = (Clock.dcIndex m + 1) mod 4
    /\ Clock.dcToggleFlag m' = 0
    /\ Clock.dcValue !! Z.to_nat (Clock.dcIndex m') = Some (width / 10)
    /\ width = 10 * (width / 10)
    /\ 0 <= width <= Clock.pwmPeriod_us.
Proof.
  unfold Clock.thread_manual_code, k_sem_take.
  destruct (Z.ltb_spec 0 (count sem)) as [_|]; [|lia].
  destruct (Z.eqb_spec (Clock.dcToggleFlag m) 0) as [|_]; [contradiction|].
  cbn [negb]. cbv zeta.
  assert (Clock.dcIndex m = 0 \/ Clock.dcIndex m = 1
          \/ Clock.dcIndex m = 2 \/ Clock.dcIndex m = 3) as Hcases by lia.
  destruct Hcases as [E|[E|[E|E]]]; rewrite E;
    match goal with
    | |- context [negb (pwm ?p ?w =? 0)] =>
        destruct (negb (pwm p w =? 0));
        do 3 eexists; (split; [first [left; reflexivity|right; reflexivity]|]);
        cbn; repeat split; try reflexivity; try lia; try (vm_compute; discriminate)
    end.
Qed.

Lemma manual_duty_cycle_steps_witness :
  0 < count (k_sem_init 1 1)
  /\ Clock.dcToggleFlag (Clock.but1press_cbfunction Clock.manual_init) <> 0
  /\ 0 <= Clock.dcIndex (Clock.but1press_cbfunction Clock.manual_init) < 4
  /\ (exists sem' m' width,
        (Clock.thread_manual_code (fun _ _ => 0) (k_sem_init 1 1)
           (Clock.but1press_cbfunction Clock.manual_init)
         = Clock.M_set sem' m' Clock.pwmPeriod_us width
         \/ Clock.thread_manual_code (fun _ _ => 0) (k_sem_init 1 1)
              (Clock.but1press_cbfunction Clock.manual_init)
            = Clock.M_returned sem' m' Clock.pwmPeriod_us width)
        /\ width = 330).
Proof.
  assert (0 < count (k_sem_init 1 1)) as Hsem by (cbn; lia).
  assert (Clock.dcToggleFlag (Clock.but1press_cbfunction Clock.manual_init) <> 0)
    as Hflag by (cbn; lia).
  assert (0 <= Clock.dcIndex (Clock.but1press_cbfunction Clock.manual_init) < 4)
    as Hidx by (cbn; lia).
  split; [exact Hsem|]. split; [exact Hflag|]. split; [exact Hidx|].
  destruct (manual_duty_cycle_steps (fun _ _ => 0) _ _ Hsem Hflag Hidx)
    as (sem' & m' & width & Hout & _ & Hi & _ & Hv & Hw & _).
  exists sem', m', width. split; [exact Hout|].
  rewrite Hi in Hv. cbn in Hv. injection Hv as Hv. lia.
Defined.
